(** * conmon-rs client: the attach I/O layer (pkg/client/attach.go)

    A shallow embedding of the attach session of the Go client: the output
    demultiplexer [redirectResponseToOutputStreams], the two goroutines
    started by [setupStdioChannels], the completion handling of [readStdio]
    and the session function [attach] with its deferred close.

    Conventions.
    - A Go [error] is [option goerr]; [None] is [nil].  Sentinels that the
      code compares by identity ([io.EOF], [io.ErrShortWrite],
      [define.ErrDetach]) are constructors of their own.
    - A Go [int] is a [Z]; the one addition the code performs on an [int]
      is written with its 64-bit wrap-around ([wrap64]).
    - An [io.Reader] is the list of the results its [Read] calls return, in
      order; once the list is used up the next [Read] never returns.
    - An [io.Writer] is a function from the payloads it was given so far and
      the payload of the present call to the pair [(n, err)] it reports.
    - A goroutine that sends one value on a channel is represented by the
      value it eventually sends, [None] when it never sends. *)

From Stdlib Require Import List ZArith Lia Bool String Strings.Byte.
Import ListNotations.
Open Scope Z_scope.

(** ** Go values *)

Inductive goerr : Type :=
| EOF                                        (* io.EOF *)
| ErrShortWrite                              (* io.ErrShortWrite *)
| ErrDetach                                  (* define.ErrDetach *)
| errors_New (msg : string)                  (* errors.New(msg) *)
| errors_Wrapf (cause : goerr) (msg : string)(* errors.Wrapf(cause, msg...) *)
| ErrOther (msg : string).                   (* any other error value *)

Definition goerr_eq_dec (a b : goerr) : {a = b} + {a <> b}.
Proof. decide equality; apply string_dec. Defined.

Definition goerr_eqb (a b : goerr) : bool :=
  if goerr_eq_dec a b then true else false.

Definition error : Type := option goerr.

Definition two63 : Z := 2 ^ 63.
Definition two64 : Z := 2 ^ 64.

Definition in_int (z : Z) : Prop := - two63 <= z < two63.

Definition wrap64 (z : Z) : Z := (z + two63) mod two64 - two63.

Definition int_add (a b : Z) : Z := wrap64 (a + b).

Definition len {A : Type} (l : list A) : Z := Z.of_nat (List.length l).
Arguments len {A} l : simpl never.

(** One call of [Read]: the bytes placed at the start of the buffer
    ([nr] is their number) and the error returned with them. *)
Record ReadResult : Type := mkRead {
  rd_data : list byte;
  rd_err  : error
}.

Definition Reader : Type := list ReadResult.

Definition Writer : Type := list (list byte) -> list byte -> Z * error.

(** ** Constants and configuration *)

Definition attachPacketBufSize : Z := 8192.
Definition attachPipeStdin  : byte := x01.
Definition attachPipeStdout : byte := x02.
Definition attachPipeStderr : byte := x03.

(** [Stdin] is consulted only by the copy goroutine and only when
    [AttachStdin] is set; the reader is kept as a value (a nil reader there
    makes the goroutine dereference nil, which is outside this model).
    [Stdout] and [Stderr] may be nil: the demultiplexer tests for it. *)
Record AttachStreams : Type := mkStreams {
  Stdin        : Reader;
  Stdout       : option Writer;
  Stderr       : option Writer;
  AttachStdin  : bool;
  AttachStdout : bool;
  AttachStderr : bool
}.

(** A hook is a nilable closure; what matters of a non-nil one is the error
    it returns when it is called.  The [Resize] channel of the Go struct is
    left out: it is handed to the resize goroutine ([EvHandleResizing]
    below) and read nowhere else. *)
Definition Hook : Type := option error.

Record AttachConfig : Type := mkConfig {
  ID                : string;
  SocketPath        : string;
  ExecSession       : string;
  Tty               : bool;
  StopAfterStdinEOF : bool;
  Passthrough       : bool;
  Streams           : AttachStreams;
  PreAttachFunc     : Hook;
  PostAttachFunc    : Hook;
  DetachKeys        : list byte
}.

(** The attach socket: what its reads deliver, how it answers writes and
    what [CloseWrite] and [Close] return. *)
Record UnixConn : Type := mkConn {
  conn_reads      : Reader;
  conn_write      : Writer;
  conn_CloseWrite : error;
  conn_Close      : error
}.

(** ** Output demultiplexer *)

Module Demux.

Inductive Pipe : Type := PStdout | PStderr.

(** What the demultiplexer has done to the outside: the payloads handed to
    each sink's [Write], oldest first, and the tags it logged as
    unexpected. *)
Record Sinks : Type := mkSinks {
  stdout_writes : list (list byte);
  stderr_writes : list (list byte);
  unexpected    : list byte
}.

Definition no_writes : Sinks := mkSinks [] [] [].

Definition writes_of (p : Pipe) (st : Sinks) : list (list byte) :=
  match p with PStdout => stdout_writes st | PStderr => stderr_writes st end.

Definition record_write (p : Pipe) (data : list byte) (st : Sinks) : Sinks :=
  match p with
  | PStdout => mkSinks (stdout_writes st ++ [data]) (stderr_writes st) (unexpected st)
  | PStderr => mkSinks (stdout_writes st) (stderr_writes st ++ [data]) (unexpected st)
  end.

Definition record_unexpected (tag : byte) (st : Sinks) : Sinks :=
  mkSinks (stdout_writes st) (stderr_writes st) (unexpected st ++ [tag]).

(** The place at which the read loop is left. *)
Inductive Exit : Type :=
| ExitNilDst                 (* return errors.New("output destination cannot be nil") *)
| ExitWriteErr (ew : goerr)  (* err = ew; break *)
| ExitShortWrite             (* err = io.ErrShortWrite; break *)
| ExitEOF                    (* er == io.EOF: break *)
| ExitReadErr (er : goerr).  (* err = er; break *)

Definition nil_destination : goerr :=
  errors_New "output destination cannot be nil".

Definition exit_value (x : Exit) : error :=
  match x with
  | ExitNilDst      => Some nil_destination
  | ExitWriteErr ew => Some ew
  | ExitShortWrite  => Some ErrShortWrite
  | ExitEOF         => None
  | ExitReadErr er  => Some er
  end.

(** The switch on [buf[0]]: the destination with the pipe it belongs to,
    the [doWrite] flag, and the log of unexpected tags. *)
Definition route (cfg : AttachConfig) (tag : byte) (st : Sinks)
  : option (Pipe * Writer) * bool * Sinks :=
  if Byte.eqb tag attachPipeStdout then
    (option_map (pair PStdout) (Stdout (Streams cfg)),
     AttachStdout (Streams cfg), st)
  else if Byte.eqb tag attachPipeStderr then
    (option_map (pair PStderr) (Stderr (Streams cfg)),
     AttachStderr (Streams cfg), st)
  else (None, false, record_unexpected tag st).

(** The tail of the loop body: the tests on [er]. *)
Definition check_read_error (er : error) : option Exit :=
  match er with
  | None => None
  | Some e => if goerr_eqb e EOF then Some ExitEOF else Some (ExitReadErr e)
  end.

(** One turn of the loop on the result of one [conn.Read(buf)];
    [None] means that the loop goes on. *)
Definition iteration (cfg : AttachConfig) (st : Sinks) (r : ReadResult)
  : Sinks * option Exit :=
  let nr := len (rd_data r) in
  match rd_data r with
  | [] => (st, check_read_error (rd_err r))
  | tag :: payload =>
      match route cfg tag st with
      | (None, _, st1) => (st1, Some ExitNilDst)
      | (Some (p, w), doWrite, st1) =>
          if doWrite then
            let '(nw, ew) := w (writes_of p st1) payload in
            let st2 := record_write p payload st1 in
            match ew with
            | Some e => (st2, Some (ExitWriteErr e))
            | None =>
                if negb (nr =? int_add nw 1) then (st2, Some ExitShortWrite)
                else (st2, check_read_error (rd_err r))
            end
          else (st1, check_read_error (rd_err r))
      end
  end.

(** The [for] loop.  When the reads are used up the next [Read] blocks for
    ever and the function does not return ([None]). *)
Fixpoint read_loop (cfg : AttachConfig) (st : Sinks) (conn : Reader)
  : Sinks * option Exit :=
  match conn with
  | [] => (st, None)
  | r :: rest =>
      match iteration cfg st r with
      | (st', Some x) => (st', Some x)
      | (st', None) => read_loop cfg st' rest
      end
  end.

Definition redirectResponseToOutputStreams
  (cfg : AttachConfig) (st : Sinks) (conn : Reader) : Sinks * option error :=
  let '(st', x) := read_loop cfg st conn in (st', option_map exit_value x).

End Demux.

(** ** The detachable copy of the stdin goroutine *)

Module Utils.

(** Modelled from the imported library: [utils.CopyDetachable] belongs to
    github.com/containers/podman/v3, not to this repository, which only
    calls it (setupStdioChannels, [utils.CopyDetachable(conn, cfg.Streams.Stdin,
    cfg.DetachKeys)]).  The definitions below follow that library function,
    an io.Copy with a scan for the detach keys:
    - the outer loop reads a chunk; an empty one only has its error tested;
    - for a non-empty one the loop over the keys collects the chunks read
      in [preservBuf]; it stops at the first chunk that is not the single
      byte of the current key, returns [define.ErrDetach] when the last key
      matched, and reads the next chunk otherwise;
    - [preservBuf] (the chunk itself when there are no keys) is written to
      [dst] in one [Write]; a write error ends the copy with it and a count
      other than the length with [io.ErrShortWrite];
    - [io.EOF] from the last read ends the copy with nil, another read
      error with that error.
    The byte count it returns is left out: the caller discards it. *)

(** Result of the inner loop over the detach keys. *)
Inductive Scan : Type :=
| ScanDetach                      (* return 0, define.ErrDetach *)
| ScanStarved                     (* the next src.Read never returns *)
| ScanDone (preservBuf : list byte) (cur : ReadResult) (rest : Reader).

(** [for i, key := range keys]: each turn appends the current read to
    [preservBuf], leaves the loop unless that read is the single byte [key],
    reports the detach at the last key and reads again otherwise. *)
Fixpoint scan_keys (keys preservBuf : list byte) (cur : ReadResult)
                   (src : Reader) : Scan :=
  match keys with
  | [] => ScanDone preservBuf cur src
  | key :: keys' =>
      let preservBuf' := preservBuf ++ rd_data cur in
      match rd_data cur with
      | [b] =>
          if Byte.eqb b key then
            match keys' with
            | [] => ScanDetach
            | _ :: _ =>
                match src with
                | [] => ScanStarved
                | r :: src' => scan_keys keys' preservBuf' r src'
                end
            end
          else ScanDone preservBuf' cur src
      | _ => ScanDone preservBuf' cur src
      end
  end.

Inductive Run (A : Type) : Type :=
| OutOfFuel
| Blocked
| Returned (a : A).
Arguments OutOfFuel {A}.
Arguments Blocked {A}.
Arguments Returned {A} a.

(** The tests on [er] that end a turn of the outer loop. *)
Definition read_error_ends (er : error) : option error :=
  match er with
  | None => None
  | Some e => if goerr_eqb e EOF then Some None else Some (Some e)
  end.

(** The outer loop.  [sent] lists the payloads written to [dst] so far.
    Every turn uses up at least one read, so [S (length src)] turns are
    enough: [fuel] only makes the recursion structural. *)
Fixpoint copy_loop (fuel : nat) (dst : Writer) (keys : list byte)
                   (sent : list (list byte)) (src : Reader)
  : list (list byte) * Run error :=
  match fuel with
  | O => (sent, OutOfFuel)
  | S fuel' =>
      match src with
      | [] => (sent, Blocked)
      | r :: rest =>
          match rd_data r with
          | [] =>
              match read_error_ends (rd_err r) with
              | Some res => (sent, Returned res)
              | None => copy_loop fuel' dst keys sent rest
              end
          | _ :: _ =>
              match scan_keys keys [] r rest with
              | ScanDetach => (sent, Returned (Some ErrDetach))
              | ScanStarved => (sent, Blocked)
              | ScanDone preservBuf cur rest' =>
                  let data := match preservBuf with
                              | [] => rd_data cur
                              | _ :: _ => preservBuf
                              end in
                  let '(nw, ew) := dst sent data in
                  let sent' := sent ++ [data] in
                  match ew with
                  | Some e => (sent', Returned (Some e))
                  | None =>
                      if negb (len data =? nw)
                      then (sent', Returned (Some ErrShortWrite))
                      else
                        match read_error_ends (rd_err cur) with
                        | Some res => (sent', Returned res)
                        | None => copy_loop fuel' dst keys sent' rest'
                        end
                  end
              end
          end
      end
  end.

Definition CopyDetachable (dst : Writer) (src : Reader) (keys : list byte)
  : list (list byte) * Run error :=
  copy_loop (S (List.length src)) dst keys [] src.

End Utils.

(** ** The session goroutine *)

Module Session.

Inductive Goroutine : Type := GoOutput | GoStdin.

(** What the goroutine running [attach] does to the outside, in order. *)
Inductive Event : Type :=
| EvDebugf (msg : string)
| EvErrorf (msg : string) (e : goerr)
| EvHandleResizing
| EvDial (path : string)
| EvPreAttach
| EvPostAttach
| EvGo (g : Goroutine)
| EvRecvStdout          (* the receive of [return <-receiveStdoutError] *)
| EvCloseWrite
| EvClose
| EvPanic.

(** A computation performs events and then returns a value, or never
    returns ([None]): it waits for a value that is never sent. *)
Definition M (A : Type) : Type := list Event * option A.

Definition ret {A : Type} (a : A) : M A := ([], Some a).

Definition bind {A B : Type} (m : M A) (k : A -> M B) : M B :=
  match m with
  | (t, None) => (t, None)
  | (t, Some a) => let '(t', r) := k a in (t ++ t', r)
  end.

Notation "x <- m ;; k" := (bind m (fun x => k))
  (at level 61, m at next level, right associativity).
Notation "m ;;; k" := (bind m (fun _ => k))
  (at level 61, right associativity).

Definition emit (e : Event) : M unit := ([e], Some tt).

(** [defer d] around [body]: [d] runs when [body] returns, before the caller
    gets the value. *)
Definition deferred {A : Type} (d : M unit) (body : M A) : M A :=
  a <- body ;; d ;;; ret a.

Definition trace {A : Type} (m : M A) : list Event := fst m.
Definition result {A : Type} (m : M A) : option A := snd m.

(** A channel on which one value is sent: the value, or [None] when the
    sender never gets there. *)
Definition chan : Type := option error.

Definition recv (ev : list Event) (c : chan) : M error := (ev, c).

Inductive Selected : Type :=
| FromStdout (err : error)    (* case err = <-receiveStdoutError *)
| FromStdin (err : error).    (* case err = <-stdinDone *)

(** [select]: the case whose channel is ready; [first] tells which of the
    two senders is ready first when both send. *)
Definition select (first : Goroutine) (receiveStdoutError stdinDone : chan)
  : M Selected :=
  match receiveStdoutError, stdinDone with
  | None, None => ([], None)
  | Some eo, None => ret (FromStdout eo)
  | None, Some ei => ret (FromStdin ei)
  | Some eo, Some ei =>
      ret (match first with GoOutput => FromStdout eo | GoStdin => FromStdin ei end)
  end.

Definition CloseWrite (conn : UnixConn) : M error :=
  emit EvCloseWrite ;;; ret (conn_CloseWrite conn).

Definition Close (conn : UnixConn) : M error :=
  emit EvClose ;;; ret (conn_Close conn).

Definition is_ErrDetach (err : error) : bool :=
  match err with Some e => goerr_eqb e ErrDetach | None => false end.

Definition readStdio (first : Goroutine) (cfg : AttachConfig) (conn : UnixConn)
                     (receiveStdoutError stdinDone : chan) : M error :=
  sel <- select first receiveStdoutError stdinDone ;;
  match sel with
  | FromStdout err =>
      CloseWrite conn ;;; ret err
  | FromStdin err =>
      if StopAfterStdinEOF cfg then ret None
      else if is_ErrDetach err then CloseWrite conn ;;; ret err
      else
        match err with
        | None =>
            connErr <- CloseWrite conn ;;
            match connErr with
            | Some e => emit (EvErrorf "Unable to close conn" e)
            | None => ret tt
            end
        | Some _ => ret tt
        end ;;;
        if AttachStdout (Streams cfg) || AttachStderr (Streams cfg)
        then recv [EvRecvStdout] receiveStdoutError
        else ret None
  end.

(** The two goroutines of [setupStdioChannels], each with what it does to
    the outside and the value it sends. *)
Definition output_goroutine (cfg : AttachConfig) (conn : UnixConn)
  : Demux.Sinks * chan :=
  Demux.redirectResponseToOutputStreams cfg Demux.no_writes (conn_reads conn).

Definition chan_of_run (r : Utils.Run error) : chan :=
  match r with Utils.Returned e => Some e | _ => None end.

(** The packets written to the transport and the value sent on
    [stdinDone]. *)
Definition stdin_goroutine (cfg : AttachConfig) (conn : UnixConn)
  : list (list byte) * chan :=
  if AttachStdin (Streams cfg) then
    let '(sent, r) := Utils.CopyDetachable (conn_write conn)
                        (Stdin (Streams cfg)) (DetachKeys cfg) in
    (sent, chan_of_run r)
  else ([], Some None).

Definition setupStdioChannels (cfg : AttachConfig) (conn : UnixConn)
  : M (chan * chan) :=
  emit (EvGo GoOutput) ;;;
  emit (EvGo GoStdin) ;;;
  ret (snd (output_goroutine cfg conn), snd (stdin_goroutine cfg conn)).

(** A hook that is not nil is called; [Some err] is the early return. *)
Definition call_hook (ev : Event) (h : Hook) : M error :=
  match h with
  | None => ret None
  | Some err => emit ev ;;; ret err
  end.

(** The environment of one call of [attach]: what dialling the socket gives
    and which goroutine is ready first. *)
Record Env : Type := mkEnv {
  env_dial  : UnixConn + goerr;
  env_first : Goroutine
}.

Definition DialLongSocket (env : Env) (path : string) : M (UnixConn + goerr) :=
  emit (EvDial path) ;;; ret (env_dial env).

(** The part of [attach] after the block that dials; [conn] is nil for a
    passthrough session. *)
Definition attach_streams (env : Env) (cfg : AttachConfig)
                          (conn : option UnixConn) : M error :=
  pre <- call_hook EvPreAttach (PreAttachFunc cfg) ;;
  match pre with
  | Some err => ret (Some err)
  | None =>
      if Passthrough cfg then ret None
      else
        match conn with
        | None => (* conn is set whenever Passthrough is false *)
            ([EvPanic], None)
        | Some conn =>
            chans <- setupStdioChannels cfg conn ;;
            let '(receiveStdoutError, stdinDone) := chans in
            post <- call_hook EvPostAttach (PostAttachFunc cfg) ;;
            match post with
            | Some err => ret (Some err)
            | None =>
                readStdio (env_first env) cfg conn receiveStdoutError stdinDone
            end
        end
  end.

Definition close_socket (conn : UnixConn) : M unit :=
  err <- Close conn ;;
  match err with
  | Some e => emit (EvErrorf "unable to close socket" e)
  | None => ret tt
  end.

Definition attach (env : Env) (cfg : AttachConfig) : M error :=
  if negb (Passthrough cfg) then
    emit (EvDebugf "Attaching to container") ;;;
    emit EvHandleResizing ;;;
    dialled <- DialLongSocket env (SocketPath cfg) ;;
    match dialled with
    | inr err =>
        ret (Some (errors_Wrapf err "failed to connect to container's attach socket"))
    | inl conn =>
        deferred (close_socket conn) (attach_streams env cfg (Some conn))
    end
  else attach_streams env cfg None.

End Session.

(** ** Vocabulary of the statements *)

Module Spec.
Import Session.

(** The [select] of [readStdio] takes the case of [stdinDone] and
    receives [err]. *)
Definition stdin_completes_first (first : Goroutine)
    (receiveStdoutError stdinDone : chan) (err : error) : Prop :=
  result (select first receiveStdoutError stdinDone) = Some (FromStdin err).

Definition half_closes (m : M error) : Prop := In EvCloseWrite (trace m).

Definition returns (m : M error) (err : error) : Prop := result m = Some err.

Definition output_enabled (cfg : AttachConfig) : bool :=
  AttachStdout (Streams cfg) || AttachStderr (Streams cfg).

(** A write that takes the whole payload and reports no error. *)
Definition accepts_all (w : Writer) : Prop :=
  forall sent p, w sent p = (len p, None).

Definition has_tag (t : byte) (r : ReadResult) : bool :=
  match rd_data r with
  | b :: _ => Byte.eqb b t
  | [] => false
  end.

(** The payload of a frame: [buf[1:nr]]. *)
Definition payload (r : ReadResult) : list byte := tl (rd_data r).

Definition stderr_payloads (conn : Reader) : list (list byte) :=
  map payload (filter (has_tag attachPipeStderr) conn).

(** A read as the demultiplexer expects it: it fits the buffer of
    [attachPacketBufSize+1] bytes and is empty or tagged STDOUT or STDERR. *)
Definition output_frame (r : ReadResult) : Prop :=
  len (rd_data r) <= attachPacketBufSize + 1 /\
  (rd_data r = [] \/ has_tag attachPipeStdout r = true
                  \/ has_tag attachPipeStderr r = true).

(** The reads up to and including the first one that reports an error. *)
Fixpoint until_read_error (conn : Reader) : Reader :=
  match conn with
  | [] => []
  | r :: rest =>
      match rd_err r with
      | Some _ => [r]
      | None => r :: until_read_error rest
      end
  end.

(** How a loop that is stopped by nothing but the reader ends. *)
Fixpoint read_end (conn : Reader) : option Demux.Exit :=
  match conn with
  | [] => None
  | r :: rest =>
      match Demux.check_read_error (rd_err r) with
      | Some x => Some x
      | None => read_end rest
      end
  end.

(** A delivered frame: a non-empty chunk whose tag selects a sink that is
    not nil and whose deliver flag is set. *)
Definition delivered_to (cfg : AttachConfig) (r : ReadResult)
                        (p : Demux.Pipe) (w : Writer) : Prop :=
  exists tag body,
    rd_data r = tag :: body /\
    ((tag = attachPipeStdout /\ p = Demux.PStdout /\
      Stdout (Streams cfg) = Some w /\ AttachStdout (Streams cfg) = true) \/
     (tag = attachPipeStderr /\ p = Demux.PStderr /\
      Stderr (Streams cfg) = Some w /\ AttachStderr (Streams cfg) = true)).

Definition nonempty (p : list byte) : bool :=
  match p with [] => false | _ :: _ => true end.

(** [p] is the start of [l]. *)
Definition is_prefix {A : Type} (p l : list A) : Prop :=
  exists rest, l = p ++ rest.

(** A packet that is a STDIN frame: the tag and at most
    [attachPacketBufSize] bytes. *)
Definition stdin_frame (packet : list byte) : Prop :=
  exists body, packet = attachPipeStdin :: body /\ len body <= attachPacketBufSize.

End Spec.

(** ** The control-plane calls *)

Module Rpc.

(** [define.TerminalSize]. *)
Record TerminalSize : Type := mkSize {
  Width  : Z;
  Height : Z
}.

Record SetWindowSizeContainerConfig : Type := mkWindowSize {
  win_ID   : string;
  win_Size : option TerminalSize        (* *define.TerminalSize, may be nil *)
}.

Inductive Method : Type := CallAttachContainer | CallSetWindowSizeContainer.

(** What a control-plane function does to the outside; the events of the
    attach session it may run are carried by [EvSession]. *)
Inductive Event : Type :=
| EvNewRPCConn                      (* c.newRPCConn() *)
| EvBootstrap                       (* conn.Bootstrap(ctx) *)
| EvCall (m : Method)               (* client.<method>(ctx, params) *)
| EvStruct                          (* future.Struct() *)
| EvResponse                        (* result.Response() *)
| EvFree                            (* the deferred free() *)
| EvRPCClose                        (* the deferred conn.Close() *)
| EvDebugf (msg : string) (arg : error)
| EvSession (e : Session.Event).

Definition M (A : Type) : Type := list Event * option A.

Definition ret {A : Type} (a : A) : M A := ([], Some a).

Definition bind {A B : Type} (m : M A) (k : A -> M B) : M B :=
  match m with
  | (t, None) => (t, None)
  | (t, Some a) => let '(t', r) := k a in (t ++ t', r)
  end.

Notation "x <- m ;; k" := (bind m (fun x => k))
  (at level 61, m at next level, right associativity).
Notation "m ;;; k" := (bind m (fun _ => k))
  (at level 61, right associativity).

Definition emit (e : Event) : M unit := ([e], Some tt).

Definition deferred {A : Type} (d : M unit) (body : M A) : M A :=
  a <- body ;; d ;;; ret a.

Definition trace {A : Type} (m : M A) : list Event := fst m.
Definition result {A : Type} (m : M A) : option A := snd m.

(** A computation of the session goroutine run from here. *)
Definition lift {A : Type} (m : Session.M A) : M A :=
  (map EvSession (fst m), snd m).

(** What the control plane answers during one call of a function below. *)
Record Env : Type := mkEnv {
  env_newRPCConn : error;
  env_Struct     : error;
  env_Response   : error
}.

Definition newRPCConn (env : Env) : M error :=
  emit EvNewRPCConn ;;; ret (env_newRPCConn env).

Definition Struct (env : Env) : M error :=
  emit EvStruct ;;; ret (env_Struct env).

Definition Response (env : Env) : M error :=
  emit EvResponse ;;; ret (env_Response env).

Definition AttachContainer (env : Env) (senv : Session.Env)
                           (cfg : AttachConfig) : M error :=
  err <- newRPCConn env ;;
  match err with
  | Some e => ret (Some e)
  | None =>
      deferred (emit EvRPCClose)
        (emit EvBootstrap ;;;
         emit (EvCall CallAttachContainer) ;;;
         deferred (emit EvFree)
           (err <- Struct env ;;
            match err with
            | Some e => ret (Some e)
            | None =>
                err <- Response env ;;
                match err with
                | Some e => ret (Some e)
                | None => lift (Session.attach senv cfg)
                end
            end))
  end.

Definition size_is_nil : goerr := errors_New "Terminal size cannot be nil".

Definition SetWindowSizeContainer (env : Env)
                                  (cfg : SetWindowSizeContainerConfig)
  : M error :=
  match win_Size cfg with
  | None => ret (Some size_is_nil)
  | Some _ =>
      err <- newRPCConn env ;;
      match err with
      | Some e => ret (Some e)
      | None =>
          deferred (emit EvRPCClose)
            (emit EvBootstrap ;;;
             emit (EvCall CallSetWindowSizeContainer) ;;;
             deferred (emit EvFree)
               (err <- Struct env ;;
                match err with
                | Some e => ret (Some e)
                | None =>
                    err <- Response env ;;
                    match err with
                    | Some e => ret (Some e)
                    | None => ret None
                    end
                end))
      end
  end.

(** The function that [attach] hands to [kubeutils.HandleResizing]: it is
    called with each terminal size taken from [cfg.Resize]. *)
Definition resize_handler (env : Env) (cfg : AttachConfig)
                          (size : TerminalSize) : M unit :=
  emit (EvDebugf "Got a resize event" None) ;;;
  err <- SetWindowSizeContainer env (mkWindowSize (ID cfg) (Some size)) ;;
  match err with
  | Some e =>
      emit (EvDebugf "Failed to write to control file to resize terminal"
                     (Some e))
  | None => ret tt
  end.

(** The first error among the three control-plane steps, nil when the
    call is acknowledged. *)
Definition ack (env : Env) : error :=
  match env_newRPCConn env with
  | Some e => Some e
  | None =>
      match env_Struct env with
      | Some e => Some e
      | None => env_Response env
      end
  end.

(** The steps of a call up to the first one that fails. *)
Definition call_events (env : Env) (m : Method) : list Event :=
  match env_newRPCConn env with
  | Some _ => [EvNewRPCConn]
  | None =>
      [EvNewRPCConn; EvBootstrap; EvCall m; EvStruct]
        ++ match env_Struct env with
           | Some _ => []
           | None => [EvResponse]
           end
  end.

(** The deferred calls, which exist once the connection does. *)
Definition release_events (env : Env) : list Event :=
  match env_newRPCConn env with
  | Some _ => []
  | None => [EvFree; EvRPCClose]
  end.

End Rpc.

(** ** Further vocabulary *)

Module Routing.
Import Session Spec.

(** The [select] of [readStdio] takes the case of [receiveStdoutError]. *)
Definition output_completes_first (first : Goroutine)
    (receiveStdoutError stdinDone : chan) (err : error) : Prop :=
  result (select first receiveStdoutError stdinDone) = Some (FromStdout err).

Definition tag_of (p : Demux.Pipe) : byte :=
  match p with
  | Demux.PStdout => attachPipeStdout
  | Demux.PStderr => attachPipeStderr
  end.

Definition flag_of (cfg : AttachConfig) (p : Demux.Pipe) : bool :=
  match p with
  | Demux.PStdout => AttachStdout (Streams cfg)
  | Demux.PStderr => AttachStderr (Streams cfg)
  end.

(** The chunk is tagged for pipe [p] and the deliver flag of [p] is set. *)
Definition delivers (cfg : AttachConfig) (p : Demux.Pipe) (r : ReadResult)
  : bool :=
  has_tag (tag_of p) r && flag_of cfg p.

Definition payloads_for (cfg : AttachConfig) (p : Demux.Pipe) (conn : Reader)
  : list (list byte) :=
  map payload (filter (delivers cfg p) conn).

Definition is_CloseWrite (e : Event) : bool :=
  match e with EvCloseWrite => true | _ => false end.

(** The events of a hook that is called. *)
Definition hook_events (ev : Event) (h : Hook) : list Event :=
  match h with Some _ => [ev] | None => [] end.

Definition hook_fails (h : Hook) : Prop := exists e, h = Some (Some e).

End Routing.

(** ** Auxiliary notions *)

Import Session Spec Demux Utils Routing.

(** The log line of a failed [CloseWrite] in the clean-stdin branch. *)
Definition close_conn_log (conn : UnixConn) : list Event :=
  match conn_CloseWrite conn with
  | Some e => [EvErrorf "Unable to close conn" e]
  | None => []
  end.

(** What the deferred function logs when the close fails. *)
Definition close_log (conn : UnixConn) : list Event :=
  match conn_Close conn with
  | Some e => [EvErrorf "unable to close socket" e]
  | None => []
  end.

(** What [attach] does before the deferred close is registered. *)
Definition attach_prologue (cfg : AttachConfig) : list Event :=
  [EvDebugf "Attaching to container"; EvHandleResizing; EvDial (SocketPath cfg)].

Definition no_close {A : Type} (m : M A) : Prop := ~ In EvClose (trace m).

(** How a copy that only the reader stops ends. *)
Definition run_of_exit (x : option Exit) : Run error :=
  match x with Some x => Returned (exit_value x) | None => Blocked end.

(** The bytes of a run of reads, in order. *)
Definition data_of (src : Reader) : list byte :=
  List.concat (map rd_data src).

(** How a copy ends, given the reads whose bytes it wrote ([consumed]),
    the reads after them ([remaining]), the packets on the transport and
    the value on [stdinDone]:
    - the last read consumed reported an error: nil is sent for [io.EOF],
      the error otherwise;
    - or the reads that follow spell the detach keys: [ErrDetach] is sent;
    - or the source gives no further read and what is left of it is the
      start of the detach keys, held back: nothing is sent;
    - or the transport refused the last packet: its error is sent, or
      [io.ErrShortWrite] when it reported another count than the length. *)
Definition copy_ending (dst : Writer) (keys : list byte)
    (consumed remaining : Reader) (packets : list (list byte)) (done : chan)
  : Prop :=
  (exists pre r e,
      consumed = pre ++ [r] /\ rd_err r = Some e /\
      done = Some (if goerr_eqb e EOF then None else Some e))
  \/ (keys <> [] /\ done = Some (Some ErrDetach) /\
      exists m, data_of (firstn m remaining) = keys)
  \/ (done = None /\ is_prefix (data_of remaining) keys)
  \/ (exists sent p nw ew,
        packets = sent ++ [p] /\ dst sent p = (nw, ew) /\
        ((exists e, ew = Some e /\ done = Some (Some e))
         \/ (ew = None /\ nw <> len p /\ done = Some (Some ErrShortWrite)))).

(** ** Sample sessions *)

Definition broken_pipe : goerr := ErrOther "write: broken pipe".

Definition accept : Writer := fun _ p => (len p, None).
Definition drops_last_byte : Writer := fun _ p => (len p - 1, None).
Definition over_reports : Writer := fun _ p => (len p + 1, None).
Definition fails_with (e : goerr) : Writer := fun _ p => (len p, Some e).

Definition streams0 (out err : bool) : AttachStreams :=
  mkStreams [] None None true out err.

Definition config0 (stop out err : bool) : AttachConfig :=
  mkConfig "ctr" "/run/attach.sock" "" false stop false (streams0 out err)
           None None [].

Definition conn0 (closeWrite : error) : UnixConn :=
  mkConn [] accept closeWrite None.

Definition output_config (out err : option Writer) (dout derr : bool)
  : AttachConfig :=
  mkConfig "ctr" "/run/attach.sock" "" false false false
           (mkStreams [] out err false dout derr) None None [].

Definition sample_output : Reader :=
  [ mkRead [x02; x61] None;          (* STDOUT "a" *)
    mkRead [x03; x62] None;          (* STDERR "b" *)
    mkRead [] (Some EOF) ].

Definition stdin_config (stdin : Reader) (keys : list byte) : AttachConfig :=
  mkConfig "ctr" "/run/attach.sock" "" false false false
           (mkStreams stdin (Some accept) (Some accept) true true true)
           None None keys.

Definition typed_a : Reader := [ mkRead [x61] None; mkRead [] (Some EOF) ].

(** One read of 8194 bytes, then EOF. *)
Definition long_chunk : Reader :=
  [ mkRead (repeat x61 (Z.to_nat (attachPacketBufSize + 2))) None;
    mkRead [] (Some EOF) ].

(** ctrl-p typed alone, then "ab" and the end of the input. *)
Definition ctrl_p_then_ab : Reader :=
  [ mkRead [x10] None; mkRead [x61; x62] (Some EOF) ].

Definition abc_then_eof : Reader :=
  [ mkRead [x61; x62; x63] None; mkRead [] (Some EOF) ].

Definition ok_then_eof : Reader :=
  [ mkRead [x02; x6f; x6b] None; mkRead [] (Some EOF) ].

Definition session_conn : UnixConn :=
  mkConn ok_then_eof accept None (Some broken_pipe).

Definition session_config (pre post : Hook) : AttachConfig :=
  mkConfig "ctr" "/run/attach.sock" "" false false false
           (mkStreams abc_then_eof (Some accept) (Some accept) true true true)
           pre post [].

Definition session_env : Env := mkEnv (inl session_conn) GoStdin.

Definition output_conn : UnixConn := mkConn sample_output accept None None.

Definition output_env (first : Goroutine) : Env :=
  mkEnv (inl output_conn) first.

Definition passthrough_config (pre post : Hook) : AttachConfig :=
  mkConfig "ctr" "/run/attach.sock" "" false false true
           (mkStreams abc_then_eof (Some accept) (Some accept) true true true)
           pre post [].

Definition rpc_ok : Rpc.Env := Rpc.mkEnv None None None.

Definition rpc_struct_fails : Rpc.Env :=
  Rpc.mkEnv None (Some broken_pipe) None.

(** The detach keys ctrl-p, ctrl-q. *)
Definition ctrl_p_q : list byte := [x10; x11].

(** * Properties *)

(** ** The monad *)

Lemma bind_ret_l {A B : Type} (a : A) (k : A -> M B) :
  bind (ret a) k = k a.
Proof. unfold bind, ret. destruct (k a) as [t r]. reflexivity. Qed.

Lemma result_bind_returned {A B : Type} (m : M A) (k : A -> M B) (a : A) :
  result m = Some a -> result (bind m k) = result (k a).
Proof.
  destruct m as [t r]. simpl. intros ->. unfold bind.
  destruct (k a) as [t' r']. reflexivity.
Qed.

Lemma select_stdin_first first rse sd err :
  stdin_completes_first first rse sd err ->
  select first rse sd = ret (FromStdin err).
Proof.
  unfold stdin_completes_first, select.
  destruct rse as [eo|], sd as [ei|]; simpl; try discriminate.
  - destruct first; simpl; intros H; inversion H. reflexivity.
  - intros H; inversion H. reflexivity.
Qed.

(** ** readStdio *)

Example readStdio_output_first :
  readStdio GoOutput
    (mkConfig "c" "s" "" false false false (mkStreams [] None None true true true) None None [])
    (mkConn [] (fun _ p => (len p, None)) None None)
    (Some (Some EOF)) (Some None)
  = ([EvCloseWrite], Some (Some EOF)).
Proof. reflexivity. Qed.

Lemma readStdio_stdin_case first cfg conn rse sd err :
  stdin_completes_first first rse sd err ->
  readStdio first cfg conn rse sd =
  bind (ret (FromStdin err)) (fun sel =>
    match sel with
    | FromStdout err => CloseWrite conn ;;; ret err
    | FromStdin err =>
        if StopAfterStdinEOF cfg then ret None
        else if is_ErrDetach err then CloseWrite conn ;;; ret err
        else
          match err with
          | None =>
              connErr <- CloseWrite conn ;;
              match connErr with
              | Some e => emit (EvErrorf "Unable to close conn" e)
              | None => ret tt
              end
          | Some _ => ret tt
          end ;;;
          if AttachStdout (Streams cfg) || AttachStderr (Streams cfg)
          then recv [EvRecvStdout] rse
          else ret None
    end).
Proof.
  intros H. unfold readStdio. rewrite (select_stdin_first _ _ _ _ H).
  reflexivity.
Qed.

(** C4.  With [StopAfterStdinEOF] set, when the [select] takes the case of
    [stdinDone], [readStdio] returns nil at once, whatever value the stdin
    goroutine sent: it performs no event at all, so it neither half-closes
    the transport nor receives from [receiveStdoutError] (which may be a
    channel on which nothing is ever sent). *)
Theorem readStdio_stop_after_stdin_eof :
  forall first cfg conn receiveStdoutError stdinDone err,
    StopAfterStdinEOF cfg = true ->
    stdin_completes_first first receiveStdoutError stdinDone err ->
    readStdio first cfg conn receiveStdoutError stdinDone = ([], Some None).
Proof.
  intros first cfg conn rse sd err Hstop Hsel.
  rewrite (readStdio_stdin_case _ _ _ _ _ _ Hsel), bind_ret_l, Hstop.
  reflexivity.
Qed.

Lemma readStdio_stop_after_stdin_eof_witness :
  readStdio GoStdin (config0 true true true) (conn0 None)
            None (Some (Some broken_pipe))
  = ([], Some None).
Proof.
  apply (readStdio_stop_after_stdin_eof GoStdin (config0 true true true)
           (conn0 None) None (Some (Some broken_pipe)) (Some broken_pipe));
    reflexivity.
Defined.

(** C5.  Without [StopAfterStdinEOF], when the stdin goroutine is first and
    sent [define.ErrDetach], [readStdio] calls [CloseWrite] on the transport
    and returns [ErrDetach]; that is all it does: it does not receive from
    [receiveStdoutError]. *)
Theorem readStdio_detach :
  forall first cfg conn receiveStdoutError stdinDone,
    StopAfterStdinEOF cfg = false ->
    stdin_completes_first first receiveStdoutError stdinDone (Some ErrDetach) ->
    readStdio first cfg conn receiveStdoutError stdinDone
    = ([EvCloseWrite], Some (Some ErrDetach)).
Proof.
  intros first cfg conn rse sd Hstop Hsel.
  rewrite (readStdio_stdin_case _ _ _ _ _ _ Hsel), bind_ret_l, Hstop.
  reflexivity.
Qed.

Lemma readStdio_detach_witness :
  readStdio GoStdin (config0 false true true) (conn0 None)
            None (Some (Some ErrDetach))
  = ([EvCloseWrite], Some (Some ErrDetach)).
Proof.
  apply (readStdio_detach GoStdin (config0 false true true) (conn0 None)
           None (Some (Some ErrDetach)));
    reflexivity.
Defined.

(** C3.  Without [StopAfterStdinEOF], when the stdin goroutine is first and
    sent nil, [readStdio] first calls [CloseWrite] (a failure of it is only
    logged); then, if [AttachStdout] or [AttachStderr] is set, it receives
    from [receiveStdoutError] and returns what the demultiplexer sends (it
    never returns when nothing is sent), and otherwise it returns nil
    without receiving from that channel. *)
Theorem readStdio_stdin_clean :
  forall first cfg conn receiveStdoutError stdinDone,
    StopAfterStdinEOF cfg = false ->
    stdin_completes_first first receiveStdoutError stdinDone None ->
    readStdio first cfg conn receiveStdoutError stdinDone
    = if output_enabled cfg
      then (EvCloseWrite :: close_conn_log conn ++ [EvRecvStdout],
            receiveStdoutError)
      else (EvCloseWrite :: close_conn_log conn, Some None).
Proof.
  intros first cfg conn rse sd Hstop Hsel.
  rewrite (readStdio_stdin_case _ _ _ _ _ _ Hsel), bind_ret_l, Hstop.
  unfold output_enabled, close_conn_log, CloseWrite. simpl.
  destruct (conn_CloseWrite conn) as [e|];
    destruct (AttachStdout (Streams cfg) || AttachStderr (Streams cfg));
    destruct rse as [r|]; reflexivity.
Qed.

Lemma readStdio_stdin_clean_witness :
  readStdio GoStdin (config0 false false true) (conn0 (Some broken_pipe))
            (Some (Some ErrShortWrite)) (Some None)
  = ([EvCloseWrite; EvErrorf "Unable to close conn" broken_pipe; EvRecvStdout],
     Some (Some ErrShortWrite)).
Proof.
  apply (readStdio_stdin_clean GoStdin (config0 false false true)
           (conn0 (Some broken_pipe)) (Some (Some ErrShortWrite)) (Some None));
    reflexivity.
Defined.

(** C1, as the code has it.  Without [StopAfterStdinEOF], when the stdin
    goroutine is first and sent an error that is not [define.ErrDetach],
    [readStdio] does not touch the transport: the half-close is guarded by
    [err == nil].  It goes on to the output: with [AttachStdout] or
    [AttachStderr] set it receives from [receiveStdoutError] and returns
    the demultiplexer's value, otherwise it returns nil.  The stdin error
    itself is not what the function returns. *)
Theorem readStdio_stdin_error :
  forall first cfg conn receiveStdoutError stdinDone e,
    StopAfterStdinEOF cfg = false ->
    e <> ErrDetach ->
    stdin_completes_first first receiveStdoutError stdinDone (Some e) ->
    readStdio first cfg conn receiveStdoutError stdinDone
    = if output_enabled cfg
      then ([EvRecvStdout], receiveStdoutError)
      else ([], Some None).
Proof.
  intros first cfg conn rse sd e Hstop He Hsel.
  rewrite (readStdio_stdin_case _ _ _ _ _ _ Hsel), bind_ret_l, Hstop.
  unfold is_ErrDetach, goerr_eqb.
  destruct (goerr_eq_dec e ErrDetach) as [Heq|_]; [contradiction|].
  unfold output_enabled.
  destruct (AttachStdout (Streams cfg) || AttachStderr (Streams cfg));
    destruct rse as [r|]; reflexivity.
Qed.

Lemma readStdio_stdin_error_witness :
  readStdio GoStdin (config0 false true false) (conn0 None)
            (Some None) (Some (Some broken_pipe))
  = ([EvRecvStdout], Some None).
Proof.
  apply (readStdio_stdin_error GoStdin (config0 false true false) (conn0 None)
           (Some None) (Some (Some broken_pipe)) broken_pipe);
    [reflexivity | discriminate | reflexivity].
Defined.

(** C1 as it is worded fails: the stdin goroutine is first with a broken
    pipe, [StopAfterStdinEOF] is off, and [readStdio] neither half-closes
    the transport nor returns that error. *)
Lemma readStdio_stdin_error_not_propagated :
  let m := readStdio GoStdin (config0 false false false) (conn0 None)
                     (Some None) (Some (Some broken_pipe)) in
  stdin_completes_first GoStdin (Some None) (Some (Some broken_pipe))
                        (Some broken_pipe)
  /\ StopAfterStdinEOF (config0 false false false) = false
  /\ broken_pipe <> ErrDetach
  /\ ~ half_closes m
  /\ ~ returns m (Some broken_pipe).
Proof.
  cbv zeta. repeat split.
  - discriminate.
  - unfold half_closes. simpl. tauto.
  - unfold returns. simpl. discriminate.
Qed.

(** ** The output demultiplexer *)

Lemma wrap64_in_int z : in_int z -> wrap64 z = z.
Proof.
  unfold in_int, wrap64, two63, two64. intros H.
  rewrite Z.mod_small; lia.
Qed.

Lemma byte_eqb_neq (a b : byte) : a <> b -> Byte.eqb a b = false.
Proof.
  intros H. destruct (Byte.eqb a b) eqn:E; [|reflexivity].
  apply Byte.byte_dec_bl in E. contradiction.
Qed.

Lemma read_loop_app cfg pre :
  forall st st' rest,
    read_loop cfg st pre = (st', None) ->
    read_loop cfg st (pre ++ rest) = read_loop cfg st' rest.
Proof.
  induction pre as [|r pre IH]; intros st st' rest H; simpl in *.
  - inversion H. reflexivity.
  - destruct (iteration cfg st r) as [st1 [x|]].
    + discriminate.
    + apply IH. exact H.
Qed.

Lemma redirect_after cfg pre st st' rest :
  read_loop cfg st pre = (st', None) ->
  redirectResponseToOutputStreams cfg st (pre ++ rest)
  = redirectResponseToOutputStreams cfg st' rest.
Proof.
  intros H. unfold redirectResponseToOutputStreams.
  rewrite (read_loop_app _ _ _ _ _ H). reflexivity.
Qed.

Lemma redirect_exit_now cfg st r rest st1 x :
  iteration cfg st r = (st1, Some x) ->
  redirectResponseToOutputStreams cfg st (r :: rest) = (st1, Some (exit_value x)).
Proof.
  intros H. unfold redirectResponseToOutputStreams. simpl. rewrite H.
  reflexivity.
Qed.

(** C6.  At whatever point of the read loop a non-empty chunk arrives whose
    first byte is neither the STDOUT tag nor the STDERR tag, the
    demultiplexer returns there with the error "output destination cannot
    be nil": it logs the tag, writes to no sink, ignores the error that came
    with the read and reads nothing further. *)
Theorem redirect_unexpected_tag_is_fatal :
  forall cfg st pre st' tag body er rest,
    read_loop cfg st pre = (st', None) ->
    tag <> attachPipeStdout ->
    tag <> attachPipeStderr ->
    redirectResponseToOutputStreams cfg st
      (pre ++ mkRead (tag :: body) er :: rest)
    = (record_unexpected tag st', Some (Some nil_destination)).
Proof.
  intros cfg st pre st' tag body er rest Hpre Hout Herr.
  rewrite (redirect_after _ _ _ _ _ Hpre).
  apply (redirect_exit_now _ _ _ _ _ ExitNilDst).
  unfold iteration, route. simpl.
  rewrite (byte_eqb_neq _ _ Hout), (byte_eqb_neq _ _ Herr). reflexivity.
Qed.

(** C10.  A chunk tagged STDOUT (or STDERR) whose sink [Streams.Stdout]
    (or [Streams.Stderr]) is nil ends the demultiplexer with "output
    destination cannot be nil", whatever [AttachStdout] and [AttachStderr]
    are: the nil test comes before the [doWrite] test. *)
Theorem redirect_nil_sink_is_fatal :
  forall cfg st pre st' tag body er rest,
    read_loop cfg st pre = (st', None) ->
    (tag = attachPipeStdout /\ Stdout (Streams cfg) = None) \/
    (tag = attachPipeStderr /\ Stderr (Streams cfg) = None) ->
    redirectResponseToOutputStreams cfg st
      (pre ++ mkRead (tag :: body) er :: rest)
    = (st', Some (Some nil_destination)).
Proof.
  intros cfg st pre st' tag body er rest Hpre Hnil.
  rewrite (redirect_after _ _ _ _ _ Hpre).
  apply (redirect_exit_now _ _ _ _ _ ExitNilDst).
  unfold iteration, route. simpl.
  destruct Hnil as [[-> Hs]|[-> Hs]]; simpl; rewrite Hs; reflexivity.
Qed.

(** C8.  For a delivered frame of [n] bytes (a chunk routed to a sink that
    is not nil and whose deliver flag is set), with [n] and the count [nw]
    reported by the sink being Go ints and [nw] not above the [n-1] bytes
    supplied: the loop is left through the short-write branch exactly when
    the write reported no error and [nw < n-1]; the function then returns
    [io.ErrShortWrite]. *)
Theorem redirect_short_write_iff :
  forall cfg st r p w nw ew,
    delivered_to cfg r p w ->
    w (writes_of p st) (payload r) = (nw, ew) ->
    in_int (len (rd_data r)) ->
    in_int nw ->
    nw <= len (rd_data r) - 1 ->
    (snd (iteration cfg st r) = Some ExitShortWrite
       <-> ew = None /\ nw < len (rd_data r) - 1)
    /\ (ew = None -> nw < len (rd_data r) - 1 ->
        forall rest,
          snd (redirectResponseToOutputStreams cfg st (r :: rest))
          = Some (Some ErrShortWrite)).
Proof.
  intros cfg st r p w nw ew Hdel Hw Hn Hnw Hle.
  assert (Hadd : int_add nw 1 = nw + 1).
  { unfold int_add. apply wrap64_in_int.
    unfold in_int, two63 in *. lia. }
  assert (Hit : iteration cfg st r =
                match ew with
                | Some e => (record_write p (payload r) st, Some (ExitWriteErr e))
                | None =>
                    if negb (len (rd_data r) =? nw + 1)
                    then (record_write p (payload r) st, Some ExitShortWrite)
                    else (record_write p (payload r) st,
                          check_read_error (rd_err r))
                end).
  { destruct Hdel as (tag & body & Hdata & Hroute).
    unfold iteration, payload in *. rewrite Hdata in *. simpl tl in *.
    unfold route.
    destruct Hroute as [(-> & -> & Hs & Hf)|(-> & -> & Hs & Hf)];
      simpl in *; rewrite Hs, Hf; simpl; rewrite Hw, Hadd; reflexivity. }
  split.
  - rewrite Hit. destruct ew as [e|]; simpl.
    + split; [discriminate | intros [H _]; discriminate].
    + destruct (len (rd_data r) =? nw + 1) eqn:E; simpl.
      * apply Z.eqb_eq in E. split.
        -- unfold check_read_error.
           destruct (rd_err r) as [e|]; [|discriminate].
           destruct (goerr_eqb e EOF); discriminate.
        -- intros [_ H]. lia.
      * apply Z.eqb_neq in E. split; [intros _; split; [reflexivity|lia]|reflexivity].
  - intros -> Hlt rest.
    unfold redirectResponseToOutputStreams. simpl. rewrite Hit.
    assert (E : (len (rd_data r) =? nw + 1) = false) by (apply Z.eqb_neq; lia).
    rewrite E. reflexivity.
Qed.

Lemma has_tag_data t r :
  has_tag t r = true -> rd_data r = t :: payload r.
Proof.
  unfold has_tag, payload. destruct (rd_data r) as [|b body]; [discriminate|].
  intros H. apply Byte.byte_dec_bl in H. subst b. reflexivity.
Qed.

Lemma iteration_empty cfg st r :
  rd_data r = [] -> iteration cfg st r = (st, check_read_error (rd_err r)).
Proof. intros H. unfold iteration. rewrite H. reflexivity. Qed.

Lemma iteration_stdout_discarded cfg w st r :
  Stdout (Streams cfg) = Some w ->
  AttachStdout (Streams cfg) = false ->
  has_tag attachPipeStdout r = true ->
  iteration cfg st r = (st, check_read_error (rd_err r)).
Proof.
  intros Hs Hf Ht. apply has_tag_data in Ht.
  unfold iteration, route. rewrite Ht. simpl. rewrite Hs, Hf. reflexivity.
Qed.

Lemma iteration_stderr_written cfg w st r :
  Stderr (Streams cfg) = Some w ->
  AttachStderr (Streams cfg) = true ->
  has_tag attachPipeStderr r = true ->
  fst (iteration cfg st r) = record_write PStderr (payload r) st.
Proof.
  intros Hs Hf Ht. apply has_tag_data in Ht.
  unfold iteration, route. rewrite Ht. simpl. rewrite Hs, Hf. simpl.
  destruct (w (stderr_writes st) (payload r)) as [nw [e|]]; [reflexivity|].
  destruct (negb _); reflexivity.
Qed.

Lemma iteration_stderr_accepted cfg w st r :
  Stderr (Streams cfg) = Some w ->
  AttachStderr (Streams cfg) = true ->
  has_tag attachPipeStderr r = true ->
  accepts_all w ->
  len (rd_data r) <= attachPacketBufSize + 1 ->
  iteration cfg st r
  = (record_write PStderr (payload r) st, check_read_error (rd_err r)).
Proof.
  intros Hs Hf Ht Hw Hlen. apply has_tag_data in Ht.
  unfold iteration, route. rewrite Ht in *. cbn. rewrite Hs, Hf. cbn.
  rewrite Hw.
  assert (E : int_add (len (payload r)) 1 = len (attachPipeStderr :: payload r)).
  { unfold int_add. rewrite wrap64_in_int.
    - unfold len. simpl List.length. lia.
    - unfold in_int, two63, attachPacketBufSize, len in *.
      simpl List.length in Hlen. lia. }
  rewrite E, Z.eqb_refl. reflexivity.
Qed.

Lemma check_read_error_some e :
  exists x, check_read_error (Some e) = Some x.
Proof. simpl. destruct (goerr_eqb e EOF); eauto. Qed.

(** A run that nothing but the reader stops, given what each turn does. *)
Lemma read_loop_drains cfg (sel : ReadResult -> bool) conn :
  forall st,
    (forall st r, In r conn ->
       iteration cfg st r
       = ((if sel r then record_write PStderr (payload r) st else st),
          check_read_error (rd_err r))) ->
    read_loop cfg st conn
    = (mkSinks (stdout_writes st)
               (stderr_writes st
                  ++ map payload (filter sel (until_read_error conn)))
               (unexpected st),
       read_end conn).
Proof.
  induction conn as [|r rest IH]; intros st Hit.
  - simpl. rewrite app_nil_r. destruct st; reflexivity.
  - simpl. rewrite (Hit st r (or_introl eq_refl)).
    destruct (rd_err r) as [e|] eqn:Er.
    + destruct (check_read_error_some e) as [x Hx]. rewrite Hx.
      simpl. destruct (sel r); simpl.
      * reflexivity.
      * rewrite app_nil_r. destruct st; reflexivity.
    + simpl. rewrite IH by (intros; apply Hit; right; assumption).
      destruct (sel r); simpl.
      * rewrite <- app_assoc. reflexivity.
      * reflexivity.
Qed.

(** C7, with the sinks present.  With [AttachStdout] off, [AttachStderr] on
    and both [Streams.Stdout] and [Streams.Stderr] not nil:
    - a chunk tagged STDOUT changes nothing and the loop goes on to the
      tests on the read error;
    - the payload of a chunk tagged STDERR (the bytes after the tag) is
      handed to the stderr sink as it is, after all earlier payloads;
    - when the stderr sink takes every write, a run over chunks tagged
      STDOUT or STDERR that fit the buffer is stopped by the reader only:
      stdout gets nothing and stderr gets exactly the STDERR payloads, in
      the order of arrival, of all the reads up to the one that reports
      EOF or an error. *)
Theorem redirect_stderr_only :
  forall cfg wout werr,
    Stdout (Streams cfg) = Some wout ->
    Stderr (Streams cfg) = Some werr ->
    AttachStdout (Streams cfg) = false ->
    AttachStderr (Streams cfg) = true ->
    (forall st r, has_tag attachPipeStdout r = true ->
       iteration cfg st r = (st, check_read_error (rd_err r)))
    /\ (forall st r, has_tag attachPipeStderr r = true ->
          fst (iteration cfg st r) = record_write PStderr (payload r) st)
    /\ (forall st conn,
          accepts_all werr ->
          Forall output_frame conn ->
          read_loop cfg st conn
          = (mkSinks (stdout_writes st)
                     (stderr_writes st ++ stderr_payloads (until_read_error conn))
                     (unexpected st),
             read_end conn)).
Proof.
  intros cfg wout werr Hso Hse Hfo Hfe. split; [|split].
  - intros st r Ht. exact (iteration_stdout_discarded _ _ _ _ Hso Hfo Ht).
  - intros st r Ht. exact (iteration_stderr_written _ _ _ _ Hse Hfe Ht).
  - intros st conn Hw Hall. unfold stderr_payloads.
    apply read_loop_drains. intros st' r Hin.
    rewrite Forall_forall in Hall. destruct (Hall r Hin) as [Hlen Hshape].
    destruct Hshape as [Hnil|[Hout|Herr]].
    + rewrite (iteration_empty _ _ _ Hnil).
      unfold has_tag. rewrite Hnil. reflexivity.
    + rewrite (iteration_stdout_discarded _ _ _ _ Hso Hfo Hout).
      apply has_tag_data in Hout. unfold has_tag. rewrite Hout. reflexivity.
    + rewrite (iteration_stderr_accepted _ _ _ _ Hse Hfe Herr Hw Hlen).
      rewrite Herr. reflexivity.
Qed.

Lemma redirect_unexpected_tag_is_fatal_witness :
  redirectResponseToOutputStreams
    (output_config (Some accept) (Some accept) true true) no_writes
    ([mkRead [x02; x61] None] ++ mkRead [attachPipeStdin; x62] None :: sample_output)
  = (record_unexpected attachPipeStdin (mkSinks [[x61]] [] []),
     Some (Some nil_destination)).
Proof.
  apply (redirect_unexpected_tag_is_fatal
           (output_config (Some accept) (Some accept) true true) no_writes
           [mkRead [x02; x61] None] (mkSinks [[x61]] [] [])
           attachPipeStdin [x62] None sample_output);
    [reflexivity | discriminate | discriminate].
Defined.

Lemma redirect_nil_sink_is_fatal_witness :
  redirectResponseToOutputStreams
    (output_config None (Some accept) false true) no_writes
    ([] ++ mkRead [attachPipeStdout; x61] None :: sample_output)
  = (no_writes, Some (Some nil_destination)).
Proof.
  apply (redirect_nil_sink_is_fatal
           (output_config None (Some accept) false true) no_writes
           [] no_writes attachPipeStdout [x61] None sample_output);
    [reflexivity | left; split; reflexivity].
Defined.

Lemma redirect_short_write_iff_witness :
  let cfg := output_config (Some accept) (Some drops_last_byte) true true in
  let r := mkRead [x03; x61; x62] None in
  (snd (iteration cfg no_writes r) = Some ExitShortWrite
     <-> @None goerr = None /\ 1 < len (rd_data r) - 1)
  /\ (@None goerr = None -> 1 < len (rd_data r) - 1 ->
      forall rest,
        snd (redirectResponseToOutputStreams cfg no_writes (r :: rest))
        = Some (Some ErrShortWrite)).
Proof.
  apply (redirect_short_write_iff
           (output_config (Some accept) (Some drops_last_byte) true true)
           no_writes (mkRead [x03; x61; x62] None) PStderr drops_last_byte
           1 None).
  - exists x03, [x61; x62]. split; [reflexivity|].
    right. repeat split; reflexivity.
  - reflexivity.
  - unfold in_int, two63, len. simpl. lia.
  - unfold in_int, two63. lia.
  - unfold len. simpl. lia.
Defined.

Lemma redirect_stderr_only_witness :
  let cfg := output_config (Some accept) (Some accept) false true in
  (forall st r, has_tag attachPipeStdout r = true ->
     iteration cfg st r = (st, check_read_error (rd_err r)))
  /\ (forall st r, has_tag attachPipeStderr r = true ->
        fst (iteration cfg st r) = record_write PStderr (payload r) st)
  /\ read_loop cfg no_writes sample_output
     = (mkSinks [] [[x62]] [], Some ExitEOF).
Proof.
  destruct (redirect_stderr_only
              (output_config (Some accept) (Some accept) false true)
              accept accept eq_refl eq_refl eq_refl eq_refl)
    as (Hout & Herr & Hrun).
  split; [exact Hout|]. split; [exact Herr|].
  apply (Hrun no_writes sample_output).
  - intros sent p. reflexivity.
  - unfold sample_output.
    repeat (apply Forall_cons || apply Forall_nil);
      unfold output_frame, has_tag, len, attachPacketBufSize; simpl;
      (split; [lia | auto]).
Defined.

(** C7 as it is worded fails when the unwanted sink is nil: with
    [AttachStdout] off and [Streams.Stdout] nil, the first chunk tagged
    STDOUT ends the loop, and the STDERR payload that follows never reaches
    the stderr sink. *)
Lemma redirect_stderr_only_nil_stdout :
  let cfg := output_config None (Some accept) false true in
  AttachStdout (Streams cfg) = false
  /\ AttachStderr (Streams cfg) = true
  /\ Forall output_frame sample_output
  /\ stderr_payloads (until_read_error sample_output) = [[x62]]
  /\ redirectResponseToOutputStreams cfg no_writes sample_output
     = (no_writes, Some (Some nil_destination))
  /\ stderr_writes (fst (read_loop cfg no_writes sample_output))
     <> stderr_payloads (until_read_error sample_output).
Proof.
  cbv zeta. repeat split.
  - unfold sample_output.
    repeat (apply Forall_cons || apply Forall_nil);
      unfold output_frame, has_tag, len, attachPacketBufSize; simpl;
      (split; [lia | auto]).
  - vm_compute. discriminate.
Qed.

(** ** The stdin goroutine *)

Lemma firstn_plus {A : Type} (a b : nat) (l : list A) :
  firstn (a + b) l = firstn a l ++ firstn b (skipn a l).
Proof.
  revert l. induction a as [|a IH]; intros l; simpl.
  - reflexivity.
  - destruct l as [|x l]; simpl.
    + rewrite firstn_nil. reflexivity.
    + rewrite IH. reflexivity.
Qed.

(** What the scan of the keys leaves to write: the bytes of the reads it
    went through, the first one included. *)
Lemma scan_keys_some keys :
  forall preservBuf cur src preservBuf' cur' rest',
    keys <> [] ->
    scan_keys keys preservBuf cur src = ScanDone preservBuf' cur' rest' ->
    exists j,
      rest' = skipn j src /\
      preservBuf'
      = preservBuf ++ rd_data cur ++ List.concat (map rd_data (firstn j src)).
Proof.
  induction keys as [|key keys' IH];
    intros pb cur src pb' cur' rest' Hne H; [contradiction|].
  assert (Hstop : ScanDone (pb ++ rd_data cur) cur src = ScanDone pb' cur' rest' ->
                  exists j, rest' = skipn j src /\
                    pb' = pb ++ rd_data cur ++ List.concat (map rd_data (firstn j src))).
  { intros E. inversion E; subst. exists 0%nat. simpl.
    rewrite app_nil_r. split; reflexivity. }
  simpl in H.
  destruct (rd_data cur) as [|b [|c l]] eqn:Ed; [exact (Hstop H)| |exact (Hstop H)].
  destruct (Byte.eqb b key); [|exact (Hstop H)].
  destruct keys' as [|k2 ks]; [discriminate|].
  destruct src as [|r src']; [discriminate|].
  apply IH in H; [|discriminate].
  destruct H as (j & Hrest & Hpb). exists (S j). simpl. split; [exact Hrest|].
  rewrite Hpb, <- !app_assoc. reflexivity.
Qed.

Lemma scan_keys_written keys r rest preservBuf cur rest' :
  rd_data r <> [] ->
  scan_keys keys [] r rest = ScanDone preservBuf cur rest' ->
  exists j,
    rest' = skipn j rest /\
    match preservBuf with [] => rd_data cur | _ :: _ => preservBuf end
    = List.concat (map rd_data (firstn (S j) (r :: rest))).
Proof.
  intros Hne H. destruct keys as [|key keys'].
  - simpl in H. inversion H; subst. exists 0%nat. simpl.
    rewrite app_nil_r. split; reflexivity.
  - apply scan_keys_some in H; [|discriminate].
    destruct H as (j & Hrest & Hpb). exists j. split; [exact Hrest|].
    simpl in Hpb. rewrite Hpb. simpl.
    destruct (rd_data r) as [|b l]; [contradiction|]. reflexivity.
Qed.

Lemma concat_snoc {A : Type} (ls : list (list A)) (l : list A) :
  List.concat (ls ++ [l]) = List.concat ls ++ l.
Proof. rewrite concat_app. simpl. rewrite app_nil_r. reflexivity. Qed.

(** The fuel given by [CopyDetachable] is never used up. *)
Lemma copy_loop_fuel fuel dst keys :
  forall sent src,
    (List.length src < fuel)%nat ->
    snd (copy_loop fuel dst keys sent src) <> OutOfFuel.
Proof.
  induction fuel as [|fuel IH]; intros sent src Hlt; [lia|].
  destruct src as [|r rest]; [simpl; discriminate|].
  simpl in Hlt. simpl. destruct (rd_data r) as [|b l] eqn:Ed.
  - destruct (read_error_ends (rd_err r)); [simpl; discriminate|].
    apply IH. lia.
  - destruct (scan_keys keys [] r rest) as [| |pb cur rest'] eqn:Es;
      try (simpl; discriminate).
    apply scan_keys_written in Es; [|rewrite Ed; discriminate].
    destruct Es as (j & Hrest & _).
    destruct (dst sent _) as [nw [e|]]; [simpl; discriminate|].
    destruct (negb _); [simpl; discriminate|].
    destruct (read_error_ends (rd_err cur)); [simpl; discriminate|].
    apply IH. rewrite Hrest, length_skipn. lia.
Qed.

Lemma read_error_ends_exit er :
  read_error_ends er = option_map exit_value (check_read_error er).
Proof.
  destruct er as [e|]; [|reflexivity]. simpl.
  destruct (goerr_eqb e EOF); reflexivity.
Qed.

(** Without detach keys and with a destination that takes every write, each
    non-empty read is written as it is, one write per read. *)
Lemma copy_loop_plain fuel dst :
  accepts_all dst ->
  forall sent src,
    (List.length src < fuel)%nat ->
    copy_loop fuel dst [] sent src
    = (sent ++ filter nonempty (map rd_data (until_read_error src)),
       run_of_exit (read_end src)).
Proof.
  intros Hdst. induction fuel as [|fuel IH]; intros sent src Hlt; [lia|].
  destruct src as [|r rest].
  { simpl. rewrite app_nil_r. reflexivity. }
  simpl in Hlt. simpl. rewrite read_error_ends_exit.
  destruct (rd_data r) as [|b l] eqn:Ed.
  - destruct (rd_err r) as [e|] eqn:Er.
    + destruct (check_read_error_some e) as [x Hx]. rewrite Hx. simpl.
      rewrite Ed. simpl. rewrite app_nil_r. reflexivity.
    + simpl. rewrite IH by lia. rewrite Ed. reflexivity.
  - rewrite Hdst, Z.eqb_refl. simpl.
    destruct (rd_err r) as [e|] eqn:Er.
    + destruct (check_read_error_some e) as [x Hx]. rewrite Hx. simpl.
      rewrite Ed. reflexivity.
    + simpl. rewrite IH by lia. rewrite Ed. simpl.
      rewrite <- app_assoc. reflexivity.
Qed.

Lemma skipn_plus {A : Type} (a b : nat) (l : list A) :
  skipn (a + b) l = skipn b (skipn a l).
Proof.
  revert l. induction a as [|a IH]; intros l; simpl.
  - reflexivity.
  - destruct l as [|x l]; simpl.
    + rewrite skipn_nil. reflexivity.
    + apply IH.
Qed.

Lemma data_of_cons r src : data_of (r :: src) = rd_data r ++ data_of src.
Proof. reflexivity. Qed.

(** A scan that lets bytes through: the reads it went through, the last of
    which is the current one, and what it collected from them. *)
Lemma scan_keys_done keys :
  forall preservBuf cur src preservBuf' cur' rest',
    scan_keys keys preservBuf cur src = ScanDone preservBuf' cur' rest' ->
    exists j,
      (j <= List.length src)%nat
      /\ rest' = skipn j src
      /\ (exists pre, cur :: firstn j src = pre ++ [cur'])
      /\ (keys <> [] ->
          preservBuf' = preservBuf ++ data_of (cur :: firstn j src))
      /\ (keys = [] -> preservBuf' = preservBuf /\ j = 0%nat).
Proof.
  induction keys as [|key keys' IH]; intros pb cur src pb' cur' rest' H.
  { simpl in H. inversion H; subst. exists 0%nat. simpl.
    split; [lia|]. split; [reflexivity|]. split; [exists []; reflexivity|].
    split; [contradiction|auto]. }
  assert (Hstop : ScanDone (pb ++ rd_data cur) cur src = ScanDone pb' cur' rest' ->
            exists j,
              (j <= List.length src)%nat
              /\ rest' = skipn j src
              /\ (exists pre, cur :: firstn j src = pre ++ [cur'])
              /\ (key :: keys' <> [] ->
                  pb' = pb ++ data_of (cur :: firstn j src))
              /\ (key :: keys' = [] -> pb' = pb /\ j = 0%nat)).
  { intros E. inversion E; subst. exists 0%nat. simpl.
    split; [lia|]. split; [reflexivity|]. split; [exists []; reflexivity|].
    split; [|discriminate]. intros _. rewrite data_of_cons. simpl.
    rewrite app_nil_r. reflexivity. }
  simpl in H.
  destruct (rd_data cur) as [|b [|c l]] eqn:Ed;
    [exact (Hstop H) | | exact (Hstop H)].
  destruct (Byte.eqb b key); [|exact (Hstop H)].
  destruct keys' as [|k2 ks]; [discriminate|].
  destruct src as [|r src']; [discriminate|].
  apply IH in H. destruct H as (j & Hj & Hrest & (pre & Hpre) & Hpb & _).
  exists (S j). simpl. split; [lia|]. split; [exact Hrest|].
  split; [exists (cur :: pre); rewrite Hpre; reflexivity|].
  split; [|discriminate]. intros _.
  rewrite (Hpb ltac:(discriminate)), !data_of_cons, Ed, <- !app_assoc.
  reflexivity.
Qed.

(** A scan that detaches went through reads that spell the keys. *)
Lemma scan_keys_detach keys :
  forall preservBuf cur src,
    scan_keys keys preservBuf cur src = ScanDetach ->
    exists m, rd_data cur ++ data_of (firstn m src) = keys.
Proof.
  induction keys as [|key keys' IH]; intros pb cur src H; [discriminate|].
  simpl in H. destruct (rd_data cur) as [|b [|c l]]; try discriminate.
  destruct (Byte.eqb b key) eqn:Eb; [|discriminate].
  apply Byte.byte_dec_bl in Eb. subst b.
  destruct keys' as [|k2 ks].
  - exists 0%nat. reflexivity.
  - destruct src as [|r src']; [discriminate|].
    apply IH in H. destruct H as [m Hm]. exists (S m). simpl.
    rewrite data_of_cons, Hm. reflexivity.
Qed.

(** A scan that the source leaves waiting holds back the start of the
    keys and nothing else. *)
Lemma scan_keys_starved keys :
  forall preservBuf cur src,
    scan_keys keys preservBuf cur src = ScanStarved ->
    is_prefix (rd_data cur ++ data_of src) keys.
Proof.
  induction keys as [|key keys' IH]; intros pb cur src H; [discriminate|].
  simpl in H. destruct (rd_data cur) as [|b [|c l]]; try discriminate.
  destruct (Byte.eqb b key) eqn:Eb; [|discriminate].
  apply Byte.byte_dec_bl in Eb. subst b.
  destruct keys' as [|k2 ks]; [discriminate|].
  destruct src as [|r src'].
  - exists (k2 :: ks). reflexivity.
  - apply IH in H. destruct H as [tail Ht]. exists tail.
    rewrite data_of_cons. simpl. rewrite Ht, <- app_assoc. reflexivity.
Qed.

Lemma copy_ending_step dst keys group consumed remaining packets done :
  copy_ending dst keys consumed remaining packets done ->
  copy_ending dst keys (group ++ consumed) remaining packets done.
Proof.
  intros [(pre & r & e & Hc & Hr & Hd)|[H|[H|H]]].
  - left. exists (group ++ pre), r, e. rewrite Hc, app_assoc. auto.
  - right. left. exact H.
  - right. right. left. exact H.
  - right. right. right. exact H.
Qed.

(** Nothing read is lost or altered on the way: the packets on the
    transport are the bytes of consecutive groups of whole reads, from the
    first read on, and the copy ends in one of the four ways of
    [copy_ending]. *)
Lemma copy_loop_forwards fuel dst keys :
  forall sent src,
    (List.length src < fuel)%nat ->
    exists k groups,
      (k <= List.length src)%nat
      /\ List.concat groups = firstn k src
      /\ fst (copy_loop fuel dst keys sent src)
         = sent ++ filter nonempty (map data_of groups)
      /\ copy_ending dst keys (firstn k src) (skipn k src)
           (fst (copy_loop fuel dst keys sent src))
           (chan_of_run (snd (copy_loop fuel dst keys sent src))).
Proof.
  induction fuel as [|fuel IH]; intros sent src Hlt; [lia|].
  destruct src as [|r rest].
  { exists 0%nat, []. simpl. rewrite app_nil_r.
    split; [lia|]. split; [reflexivity|]. split; [reflexivity|].
    right. right. left. split; [reflexivity|]. exists keys. reflexivity. }
  simpl in Hlt. cbn [copy_loop].
  destruct (rd_data r) as [|b l] eqn:Ed.
  - (* an empty read *)
    destruct (read_error_ends (rd_err r)) as [res|] eqn:Ee.
    + exists 1%nat, [[r]]. cbn [fst snd chan_of_run].
      split; [simpl; lia|]. split; [reflexivity|].
      split.
      * cbn [map filter]. rewrite data_of_cons, Ed. simpl.
        rewrite app_nil_r. reflexivity.
      * left. exists [], r. unfold read_error_ends in Ee.
        destruct (rd_err r) as [e|]; [|discriminate]. exists e.
        split; [reflexivity|]. split; [reflexivity|].
        destruct (goerr_eqb e EOF); inversion Ee; reflexivity.
    + destruct (IH sent rest ltac:(lia)) as (k & groups & Hk & Hg & Hp & He).
      exists (S k), ([r] :: groups).
      split; [simpl; lia|]. split; [simpl; rewrite Hg; reflexivity|].
      split.
      * rewrite Hp. cbn [map filter]. rewrite data_of_cons, Ed. reflexivity.
      * simpl firstn. simpl skipn.
        apply (copy_ending_step dst keys [r]). exact He.
  - (* a read with bytes: the scan of the keys *)
    destruct (scan_keys keys [] r rest) as [| |pb cur rest'] eqn:Es.
    + exists 0%nat, []. cbn [fst snd chan_of_run]. simpl.
      rewrite app_nil_r. split; [lia|]. split; [reflexivity|].
      split; [reflexivity|]. right. left.
      split; [intros ->; discriminate|]. split; [reflexivity|].
      destruct (scan_keys_detach _ _ _ _ Es) as [m Hm].
      exists (S m). simpl. rewrite data_of_cons. exact Hm.
    + exists 0%nat, []. cbn [fst snd chan_of_run]. simpl.
      rewrite app_nil_r. split; [lia|]. split; [reflexivity|].
      split; [reflexivity|]. right. right. left.
      split; [reflexivity|]. rewrite data_of_cons.
      exact (scan_keys_starved _ _ _ _ Es).
    + destruct (scan_keys_done _ _ _ _ _ _ _ Es)
        as (j & Hj & Hrest & (pre & Hpre) & Hsome & Hnone).
      set (data := match pb with [] => rd_data cur | _ :: _ => pb end).
      assert (Hdata : data = data_of (r :: firstn j rest)).
      { subst data. destruct keys as [|key keys'].
        - destruct (Hnone eq_refl) as [-> ->]. simpl in Hpre.
          destruct pre as [|x [|y pre]]; inversion Hpre; subst.
          rewrite data_of_cons. simpl. rewrite app_nil_r. reflexivity.
        - rewrite (Hsome ltac:(discriminate)). simpl.
          rewrite data_of_cons, Ed. reflexivity. }
      assert (Hne : nonempty data = true).
      { rewrite Hdata, data_of_cons, Ed. reflexivity. }
      assert (Hfirst : firstn (S j) (r :: rest) = r :: firstn j rest)
        by reflexivity.
      assert (Hone : forall res : Run error,
                 fst (sent ++ [data], res)
                 = sent ++ filter nonempty (map data_of [r :: firstn j rest])).
      { intros res. simpl. rewrite <- Hdata, Hne. reflexivity. }
      destruct (dst sent data) as [nw ew] eqn:Ew.
      destruct ew as [e|].
      { exists (S j), [r :: firstn j rest].
        split; [simpl; lia|]. split; [simpl; rewrite app_nil_r; reflexivity|].
        split; [apply Hone|]. cbn [fst snd chan_of_run].
        right. right. right. exists sent, data, nw, (Some e).
        split; [reflexivity|]. split; [exact Ew|]. left. exists e. auto. }
      destruct (negb (len data =? nw)) eqn:En.
      { exists (S j), [r :: firstn j rest].
        split; [simpl; lia|]. split; [simpl; rewrite app_nil_r; reflexivity|].
        split; [apply Hone|]. cbn [fst snd chan_of_run].
        right. right. right. exists sent, data, nw, None.
        split; [reflexivity|]. split; [exact Ew|]. right.
        split; [reflexivity|]. split; [|reflexivity].
        apply negb_true_iff, Z.eqb_neq in En. congruence. }
      destruct (read_error_ends (rd_err cur)) as [res|] eqn:Ee.
      { exists (S j), [r :: firstn j rest].
        split; [simpl; lia|]. split; [simpl; rewrite app_nil_r; reflexivity|].
        split; [apply Hone|]. cbn [fst snd chan_of_run].
        left. exists pre, cur. unfold read_error_ends in Ee.
        destruct (rd_err cur) as [e|]; [|discriminate]. exists e.
        split; [rewrite Hfirst; exact Hpre|]. split; [reflexivity|].
        destruct (goerr_eqb e EOF); inversion Ee; reflexivity. }
      assert (Hlen : (List.length rest' < fuel)%nat).
      { rewrite Hrest, length_skipn. lia. }
      destruct (IH (sent ++ [data]) rest' Hlen)
        as (k & groups & Hk & Hg & Hp & He).
      exists (S j + k)%nat, ((r :: firstn j rest) :: groups).
      assert (Hskip : skipn (S j) (r :: rest) = rest')
        by (simpl; symmetry; exact Hrest).
      split.
      { rewrite Hrest, length_skipn in Hk. simpl. lia. }
      split.
      { rewrite firstn_plus, Hskip, Hfirst. simpl. rewrite Hg. reflexivity. }
      split.
      { rewrite Hp. cbn [map filter]. rewrite <- Hdata, Hne, <- app_assoc.
        reflexivity. }
      rewrite firstn_plus, skipn_plus, Hskip.
      apply copy_ending_step. exact He.
Qed.

(** C2, as the code has it.  Every chunk read from the local stdin source
    is written to the transport as it is after the scan for the detach
    keys, untagged and unsplit: the stdin goroutine gives the transport
    itself to [utils.CopyDetachable] and applies no framing of its own
    ([attachPipeStdin] is not used).
    - With [AttachStdin] off it writes nothing and sends nil.
    - With [AttachStdin] on, whatever the detach keys and the answers of
      the transport: the packets on the transport are exactly the bytes of
      consecutive groups of whole reads, starting with the first read (a
      group is one read, or the reads that one scan of the keys went
      through; empty groups give no packet); no byte is added, dropped or
      moved, and no read is split.  The copy stops only because the last
      read written reported [io.EOF] or an error, because the reads that
      follow spell the detach keys, because the source is used up (what is
      left unwritten then is the start of the keys, held back), or because
      the transport refused the last packet.
    - With no detach keys and a transport that takes every write, every
      non-empty chunk is one packet equal to the chunk, whatever its
      length, up to the read that reports EOF (nil is sent) or an error (it
      is sent).
    - The copy loop always has enough fuel. *)
Theorem stdin_goroutine_writes_raw :
  forall cfg conn,
    (AttachStdin (Streams cfg) = false ->
     stdin_goroutine cfg conn = ([], Some None))
    /\ (AttachStdin (Streams cfg) = true ->
        exists k groups,
          (k <= List.length (Stdin (Streams cfg)))%nat
          /\ List.concat groups = firstn k (Stdin (Streams cfg))
          /\ fst (stdin_goroutine cfg conn)
             = filter nonempty (map data_of groups)
          /\ copy_ending (conn_write conn) (DetachKeys cfg)
               (firstn k (Stdin (Streams cfg)))
               (skipn k (Stdin (Streams cfg)))
               (fst (stdin_goroutine cfg conn))
               (snd (stdin_goroutine cfg conn)))
    /\ (AttachStdin (Streams cfg) = true ->
        DetachKeys cfg = [] ->
        accepts_all (conn_write conn) ->
        stdin_goroutine cfg conn
        = (filter nonempty
             (map rd_data (until_read_error (Stdin (Streams cfg)))),
           option_map exit_value (read_end (Stdin (Streams cfg)))))
    /\ snd (CopyDetachable (conn_write conn) (Stdin (Streams cfg))
                           (DetachKeys cfg)) <> OutOfFuel.
Proof.
  intros cfg conn. split; [|split; [|split]].
  - intros H. unfold stdin_goroutine. rewrite H. reflexivity.
  - intros Hin. unfold stdin_goroutine, CopyDetachable. rewrite Hin.
    destruct (copy_loop_forwards
                (S (List.length (Stdin (Streams cfg)))) (conn_write conn)
                (DetachKeys cfg) [] (Stdin (Streams cfg)) ltac:(lia))
      as (k & groups & Hk & Hg & Hp & He).
    exists k, groups.
    destruct (copy_loop _ _ _ _ _) as [sent r]. cbn [fst snd] in *.
    auto.
  - intros Hin Hkeys Hacc. unfold stdin_goroutine, CopyDetachable.
    rewrite Hin, Hkeys, (copy_loop_plain _ _ Hacc) by lia.
    simpl. destruct (read_end (Stdin (Streams cfg))); reflexivity.
  - unfold CopyDetachable. apply copy_loop_fuel. lia.
Qed.

Lemma stdin_goroutine_writes_raw_witness :
  stdin_goroutine (stdin_config typed_a []) (conn0 None) = ([[x61]], Some None)
  /\ exists k groups,
       (k <= List.length ctrl_p_then_ab)%nat
       /\ List.concat groups = firstn k ctrl_p_then_ab
       /\ fst (stdin_goroutine (stdin_config ctrl_p_then_ab ctrl_p_q) (conn0 None))
          = filter nonempty (map data_of groups)
       /\ copy_ending accept ctrl_p_q
            (firstn k ctrl_p_then_ab) (skipn k ctrl_p_then_ab)
            (fst (stdin_goroutine (stdin_config ctrl_p_then_ab ctrl_p_q) (conn0 None)))
            (snd (stdin_goroutine (stdin_config ctrl_p_then_ab ctrl_p_q) (conn0 None))).
Proof.
  split.
  - destruct (stdin_goroutine_writes_raw (stdin_config typed_a []) (conn0 None))
      as (_ & _ & Hplain & _).
    apply Hplain; [reflexivity | reflexivity | intros sent p; reflexivity].
  - destruct (stdin_goroutine_writes_raw
                (stdin_config ctrl_p_then_ab ctrl_p_q) (conn0 None))
      as (_ & Hfwd & _ & _).
    apply Hfwd. reflexivity.
Defined.

(** C2 as it is worded fails, in both of its parts.  The byte "a" read
    from stdin reaches the transport as the one-byte packet "a", which does
    not start with the STDIN tag; and a chunk of 8194 bytes reaches it as
    one packet of 8194 bytes, more than a tag and 8192 bytes of payload. *)
Lemma stdin_goroutine_sends_untagged :
  AttachStdin (Streams (stdin_config typed_a [])) = true
  /\ stdin_goroutine (stdin_config typed_a []) (conn0 None)
     = ([[x61]], Some None)
  /\ ~ (forall packet,
          In packet (fst (stdin_goroutine (stdin_config typed_a []) (conn0 None))) ->
          stdin_frame packet)
  /\ stdin_goroutine (stdin_config long_chunk []) (conn0 None)
     = ([repeat x61 (Z.to_nat (attachPacketBufSize + 2))], Some None)
  /\ ~ (forall packet,
          In packet (fst (stdin_goroutine (stdin_config long_chunk []) (conn0 None))) ->
          len packet <= attachPacketBufSize + 1).
Proof.
  split; [reflexivity|]. split; [reflexivity|]. split; [|split].
  - intros H. destruct (H [x61] (or_introl eq_refl)) as (body & Hb & _).
    discriminate.
  - vm_compute. reflexivity.
  - intros H.
    assert (Hrun : fst (stdin_goroutine (stdin_config long_chunk []) (conn0 None))
                   = [repeat x61 (Z.to_nat (attachPacketBufSize + 2))])
      by (vm_compute; reflexivity).
    rewrite Hrun in H. specialize (H _ (or_introl eq_refl)).
    vm_compute in H. apply H. reflexivity.
Qed.

(** ** attach *)

Lemma no_close_bind {A B : Type} (m : M A) (k : A -> M B) :
  no_close m -> (forall a, no_close (k a)) -> no_close (bind m k).
Proof.
  unfold no_close, bind, trace. destruct m as [t [a|]]; simpl; intros Hm Hk.
  - specialize (Hk a). destruct (k a) as [t' r]. simpl in *.
    rewrite in_app_iff. tauto.
  - exact Hm.
Qed.

Lemma no_close_ret {A : Type} (a : A) : no_close (ret a).
Proof. unfold no_close. simpl. tauto. Qed.

Lemma no_close_emit e : e <> EvClose -> no_close (emit e).
Proof. unfold no_close. simpl. intros H [E|[]]. congruence. Qed.

Lemma no_close_recv c : no_close (recv [EvRecvStdout] c).
Proof. unfold no_close. simpl. intros [E|[]]. discriminate. Qed.

Lemma no_close_select first rse sd : no_close (select first rse sd).
Proof.
  unfold no_close, select. destruct rse, sd; simpl; tauto.
Qed.

Lemma no_close_CloseWrite conn : no_close (CloseWrite conn).
Proof.
  unfold CloseWrite. apply no_close_bind.
  - apply no_close_emit. discriminate.
  - intros _. apply no_close_ret.
Qed.

Create HintDb noclose.
#[local] Hint Resolve no_close_ret no_close_recv no_close_select
  no_close_CloseWrite : noclose.

Ltac no_close_step :=
  match goal with
  | |- no_close (bind _ _) => apply no_close_bind; [|intros ?]
  | |- no_close (emit _) => apply no_close_emit; discriminate
  | |- no_close (match ?x with _ => _ end) => destruct x
  | |- no_close (if ?x then _ else _) => destruct x
  | |- no_close _ => solve [auto with noclose]
  end.

Lemma no_close_readStdio first cfg conn rse sd :
  no_close (readStdio first cfg conn rse sd).
Proof. unfold readStdio. repeat no_close_step. Qed.

Lemma no_close_call_hook ev h : ev <> EvClose -> no_close (call_hook ev h).
Proof.
  intros H. unfold call_hook. destruct h as [err|].
  - apply no_close_bind; [apply no_close_emit; exact H|intros _; apply no_close_ret].
  - apply no_close_ret.
Qed.

Lemma no_close_setupStdioChannels cfg conn :
  no_close (setupStdioChannels cfg conn).
Proof. unfold setupStdioChannels. repeat no_close_step. Qed.

Lemma no_close_attach_streams env cfg conn :
  Passthrough cfg = false ->
  no_close (attach_streams env cfg (Some conn)).
Proof.
  intros Hp. unfold attach_streams. rewrite Hp.
  apply no_close_bind; [apply no_close_call_hook; discriminate|].
  intros [err|]; [apply no_close_ret|].
  apply no_close_bind; [apply no_close_setupStdioChannels|].
  intros [rse sd].
  apply no_close_bind; [apply no_close_call_hook; discriminate|].
  intros [err|]; [apply no_close_ret|].
  apply no_close_readStdio.
Qed.

Lemma close_socket_runs conn :
  close_socket conn = (EvClose :: close_log conn, Some tt).
Proof.
  unfold close_socket, Close, close_log.
  destruct (conn_Close conn); reflexivity.
Qed.

Lemma deferred_runs {A : Type} (d : M unit) (body : M A) t :
  d = (t, Some tt) ->
  deferred d body
  = (match result body with
     | Some _ => trace body ++ t
     | None => trace body
     end, result body).
Proof.
  intros ->. unfold deferred, bind, ret, trace, result.
  destruct body as [tb [a|]]; simpl; [|reflexivity].
  rewrite app_nil_r. reflexivity.
Qed.

(** A session whose demultiplexer ends does return. *)
Lemma readStdio_returns first cfg conn rse sd :
  rse <> None -> result (readStdio first cfg conn rse sd) <> None.
Proof.
  intros H. destruct rse as [eo|]; [clear H|contradiction].
  unfold readStdio, select.
  destruct sd as [ei|]; [destruct first|]; rewrite bind_ret_l.
  - simpl. discriminate.
  - destruct (StopAfterStdinEOF cfg); [simpl; discriminate|].
    destruct (is_ErrDetach ei); [simpl; discriminate|].
    destruct ei as [e|]; [|destruct (conn_CloseWrite conn) eqn:E];
      unfold CloseWrite; try rewrite E;
      destruct (AttachStdout (Streams cfg) || AttachStderr (Streams cfg));
      simpl; discriminate.
  - simpl. discriminate.
Qed.

Lemma call_hook_returns ev h : exists t err, call_hook ev h = (t, Some err).
Proof. destruct h as [err|]; cbv; eauto. Qed.

Lemma attach_streams_returns env cfg conn :
  Passthrough cfg = false ->
  snd (output_goroutine cfg conn) <> None ->
  result (attach_streams env cfg (Some conn)) <> None.
Proof.
  intros Hp Hout. unfold attach_streams. rewrite Hp.
  destruct (call_hook_returns EvPreAttach (PreAttachFunc cfg)) as (t1 & pre & ->).
  rewrite (result_bind_returned (t1, Some pre) _ pre eq_refl).
  destruct pre as [e|]; [simpl; discriminate|].
  rewrite (result_bind_returned (setupStdioChannels cfg conn) _
             (snd (output_goroutine cfg conn), snd (stdin_goroutine cfg conn))
             eq_refl).
  destruct (call_hook_returns EvPostAttach (PostAttachFunc cfg)) as (t2 & post & ->).
  rewrite (result_bind_returned (t2, Some post) _ post eq_refl).
  destruct post as [e|]; [simpl; discriminate|].
  apply readStdio_returns. exact Hout.
Qed.

Lemma attach_dialled env cfg conn :
  Passthrough cfg = false ->
  env_dial env = inl conn ->
  attach env cfg
  = (attach_prologue cfg
       ++ trace (deferred (close_socket conn) (attach_streams env cfg (Some conn))),
     result (deferred (close_socket conn) (attach_streams env cfg (Some conn)))).
Proof.
  intros Hp Hd. unfold attach, DialLongSocket. rewrite Hp, Hd. simpl negb.
  cbv iota. unfold emit at 1 2 3. unfold bind at 1 2 3 4. unfold ret at 1.
  cbv beta iota.
  destruct (deferred _ _) as [t r]. reflexivity.
Qed.

(** C9.  In a session that is not passthrough and whose dial succeeded, the
    deferred function closes the transport on every path on which [attach]
    returns: the trace of the call is what came before, without any
    [Close], then the [Close] of the connection and, when that fails, its
    log line.  The paths are all there are: a failing pre-attach hook and a
    failing post-attach hook return their error, and the call returns
    whenever the demultiplexer ends (it does not return only while
    [readStdio] waits for a demultiplexer that never ends). *)
Theorem attach_closes_transport :
  forall env cfg conn,
    Passthrough cfg = false ->
    env_dial env = inl conn ->
    (forall err,
        result (attach env cfg) = Some err ->
        exists before,
          trace (attach env cfg) = before ++ EvClose :: close_log conn
          /\ ~ In EvClose before)
    /\ (forall e, PreAttachFunc cfg = Some (Some e) ->
          result (attach env cfg) = Some (Some e))
    /\ (forall e,
          (forall e', PreAttachFunc cfg <> Some (Some e')) ->
          PostAttachFunc cfg = Some (Some e) ->
          result (attach env cfg) = Some (Some e))
    /\ (snd (output_goroutine cfg conn) <> None ->
        result (attach env cfg) <> None).
Proof.
  intros env cfg conn Hp Hd.
  rewrite (attach_dialled _ _ _ Hp Hd).
  rewrite (deferred_runs _ _ _ (close_socket_runs conn)).
  unfold trace, result. simpl fst. simpl snd.
  split; [|split; [|split]].
  - intros err Hr. rewrite Hr.
    exists (attach_prologue cfg ++ fst (attach_streams env cfg (Some conn))).
    split; [rewrite <- app_assoc; reflexivity|].
    rewrite in_app_iff. intros [H|H].
    + unfold attach_prologue in H. simpl in H.
      destruct H as [H|[H|[H|[]]]]; discriminate.
    + exact (no_close_attach_streams env cfg conn Hp H).
  - intros e Hpre. unfold attach_streams. rewrite Hpre. reflexivity.
  - intros e Hpre Hpost. unfold attach_streams. rewrite Hp, Hpost.
    destruct (PreAttachFunc cfg) as [[e'|]|];
      [exfalso; exact (Hpre e' eq_refl)| |]; reflexivity.
  - intros Hout. exact (attach_streams_returns env cfg conn Hp Hout).
Qed.

(** The end-to-end session of the specification: stdin is "abc" then EOF,
    the peer sends one STDOUT frame "ok" and closes. *)
Example attach_end_to_end :
  attach session_env (session_config None None)
  = ([EvDebugf "Attaching to container"; EvHandleResizing;
      EvDial "/run/attach.sock"; EvGo GoOutput; EvGo GoStdin;
      EvCloseWrite; EvRecvStdout;
      EvClose; EvErrorf "unable to close socket" broken_pipe],
     Some None)
  /\ output_goroutine (session_config None None) session_conn
     = (mkSinks [[x6f; x6b]] [] [], Some None)
  /\ stdin_goroutine (session_config None None) session_conn
     = ([[x61; x62; x63]], Some None).
Proof. repeat split. Qed.

Lemma attach_closes_transport_witness :
  result (attach session_env (session_config None (Some (Some broken_pipe))))
  = Some (Some broken_pipe)
  /\ exists before,
       trace (attach session_env (session_config None (Some (Some broken_pipe))))
       = before ++ EvClose :: close_log session_conn
       /\ ~ In EvClose before.
Proof.
  destruct (attach_closes_transport session_env
              (session_config None (Some (Some broken_pipe))) session_conn
              eq_refl eq_refl) as (Hclose & _ & Hpost & _).
  split.
  - apply Hpost; [discriminate | reflexivity].
  - apply (Hclose (Some broken_pipe)). reflexivity.
Defined.

(** The copy with detach keys: the keys in a row detach and nothing is
    written; a key followed by another byte is written with it. *)
Example CopyDetachable_detach :
  CopyDetachable accept [mkRead [x10] None; mkRead [x11] None; mkRead [x61] None]
                 ctrl_p_q
  = ([], Returned (Some ErrDetach))
  /\ CopyDetachable accept
       [mkRead [x10] None; mkRead [x61] None; mkRead [x62] (Some EOF)] ctrl_p_q
     = ([[x10; x61]; [x62]], Returned None).
Proof. split; reflexivity. Qed.

(** * Further properties *)

(** ** The read loop *)

(** X1.  A zero-length read is never decoded: at any point of the loop it
    touches no sink and logs nothing; without an error the loop goes on to
    the next read, with [io.EOF] the function returns nil and with any other
    error it returns that error. *)
Theorem redirect_empty_read :
  forall cfg st pre st' er rest,
    read_loop cfg st pre = (st', None) ->
    redirectResponseToOutputStreams cfg st (pre ++ mkRead [] er :: rest)
    = match er with
      | None => redirectResponseToOutputStreams cfg st' rest
      | Some e => (st', Some (if goerr_eqb e EOF then None else Some e))
      end.
Proof.
  intros cfg st pre st' er rest Hpre.
  rewrite (redirect_after _ _ _ _ _ Hpre).
  unfold redirectResponseToOutputStreams. simpl.
  destruct er as [e|]; simpl; [|reflexivity].
  destruct (goerr_eqb e EOF); reflexivity.
Qed.

Lemma redirect_empty_read_witness :
  redirectResponseToOutputStreams
    (output_config (Some accept) (Some accept) true true) no_writes
    ([mkRead [x02; x61] None] ++ mkRead [] (Some broken_pipe) :: sample_output)
  = (mkSinks [[x61]] [] [], Some (Some broken_pipe)).
Proof.
  apply (redirect_empty_read
           (output_config (Some accept) (Some accept) true true) no_writes
           [mkRead [x02; x61] None] (mkSinks [[x61]] [] [])
           (Some broken_pipe) sample_output).
  reflexivity.
Defined.

Lemma iteration_delivered cfg st r p w :
  delivered_to cfg r p w ->
  iteration cfg st r
  = let '(nw, ew) := w (writes_of p st) (payload r) in
    match ew with
    | Some e => (record_write p (payload r) st, Some (ExitWriteErr e))
    | None =>
        if negb (len (rd_data r) =? int_add nw 1)
        then (record_write p (payload r) st, Some ExitShortWrite)
        else (record_write p (payload r) st, check_read_error (rd_err r))
    end.
Proof.
  intros (tag & body & Hdata & Hroute).
  unfold iteration, payload, route. rewrite Hdata. cbn [tl].
  destruct Hroute as [(-> & -> & Hs & Hf)|(-> & -> & Hs & Hf)];
    cbn; rewrite Hs, Hf; cbn; reflexivity.
Qed.

(** X2.  For a delivered frame, an error reported by the sink's [Write]
    ends the demultiplexer with that very error, whatever count came with
    it and whatever the read itself reported (an [io.EOF] that arrived with
    the chunk does not turn the result into nil); later reads are not
    made. *)
Theorem redirect_write_error :
  forall cfg st r p w nw e rest,
    delivered_to cfg r p w ->
    w (writes_of p st) (payload r) = (nw, Some e) ->
    redirectResponseToOutputStreams cfg st (r :: rest)
    = (record_write p (payload r) st, Some (Some e)).
Proof.
  intros cfg st r p w nw e rest Hdel Hw.
  apply (redirect_exit_now _ _ _ _ _ (ExitWriteErr e)).
  rewrite (iteration_delivered _ _ _ _ _ Hdel), Hw. reflexivity.
Qed.

Lemma wrap64_succ_eq nw n :
  in_int nw -> 0 < n -> in_int n -> (n =? int_add nw 1) = (n =? nw + 1).
Proof.
  unfold int_add, in_int, two63. intros Hnw Hpos Hn.
  destruct (Z.eq_dec nw (2 ^ 63 - 1)) as [->|Hne].
  - replace (wrap64 (2 ^ 63 - 1 + 1)) with (- 2 ^ 63) by reflexivity.
    transitivity false; [|symmetry]; apply Z.eqb_neq; lia.
  - rewrite wrap64_in_int; [reflexivity|]. unfold in_int, two63. lia.
Qed.

(** X3.  The count test of a delivered frame of [n] bytes is an exact
    match: when the write reports no error, the loop is left through the
    short-write branch for every count other than [n-1], a count above the
    bytes supplied included (and the largest int, whose successor wraps
    around). *)
Theorem redirect_count_mismatch :
  forall cfg st r p w nw,
    delivered_to cfg r p w ->
    w (writes_of p st) (payload r) = (nw, None) ->
    in_int (len (rd_data r)) ->
    in_int nw ->
    (snd (iteration cfg st r) = Some ExitShortWrite
     <-> nw <> len (rd_data r) - 1).
Proof.
  intros cfg st r p w nw Hdel Hw Hn Hnw.
  assert (Hpos : 0 < len (rd_data r)).
  { destruct Hdel as (tag & body & -> & _). unfold len. simpl List.length. lia. }
  rewrite (iteration_delivered _ _ _ _ _ Hdel), Hw.
  rewrite (wrap64_succ_eq _ _ Hnw Hpos Hn).
  destruct (len (rd_data r) =? nw + 1) eqn:E; simpl.
  - apply Z.eqb_eq in E. split; [|intros H; lia].
    unfold check_read_error. destruct (rd_err r) as [e|]; [|discriminate].
    destruct (goerr_eqb e EOF); discriminate.
  - apply Z.eqb_neq in E. split; [intros _; lia|reflexivity].
Qed.

(** X6.  Once the loop is left nothing more is read: reads that follow the
    one at which the function returned change neither the result nor what
    the sinks received. *)
Theorem read_loop_stops_reading :
  forall cfg pre st st' x rest,
    read_loop cfg st pre = (st', Some x) ->
    read_loop cfg st (pre ++ rest) = (st', Some x).
Proof.
  intros cfg pre. induction pre as [|r pre IH]; intros st st' x rest H.
  - discriminate.
  - simpl in *. destruct (iteration cfg st r) as [st1 [y|]].
    + exact H.
    + apply IH. exact H.
Qed.

Lemma has_tag_two_tags t1 t2 r :
  t1 <> t2 -> has_tag t1 r = true -> has_tag t2 r = false.
Proof.
  unfold has_tag. destruct (rd_data r) as [|b body]; [discriminate|].
  intros Hne H. apply Byte.byte_dec_bl in H. subst b.
  apply byte_eqb_neq. exact Hne.
Qed.

(** What one turn does to the sinks: nothing when it ends on a nil
    destination, and otherwise one write of the payload to the pipe the
    chunk is delivered to. *)
Lemma iteration_routes cfg st r :
  (snd (iteration cfg st r) = Some ExitNilDst /\
   forall p, writes_of p (fst (iteration cfg st r)) = writes_of p st)
  \/ (forall p,
        writes_of p (fst (iteration cfg st r))
        = writes_of p st ++ (if delivers cfg p r then [payload r] else [])).
Proof.
  unfold iteration, delivers, has_tag, payload, route.
  destruct (rd_data r) as [|tag body] eqn:Ed.
  { right. intros p. simpl. rewrite app_nil_r. reflexivity. }
  cbn [tl].
  destruct (Byte.eqb tag attachPipeStdout) eqn:Eo.
  - apply Byte.byte_dec_bl in Eo. subst tag.
    destruct (Stdout (Streams cfg)) as [w|]; cbn;
      [|left; split; [reflexivity|intros p; reflexivity]].
    destruct (AttachStdout (Streams cfg)) eqn:Ef.
    + right. intros p.
      destruct (w (stdout_writes st) body) as [nw [e|]];
        [|destruct (negb _)];
        destruct p; cbn; rewrite ?Ef, ?app_nil_r; reflexivity.
    + right. intros p. destruct p; cbn; rewrite ?Ef, ?app_nil_r; reflexivity.
  - destruct (Byte.eqb tag attachPipeStderr) eqn:Ee.
    + apply Byte.byte_dec_bl in Ee. subst tag.
      destruct (Stderr (Streams cfg)) as [w|]; cbn;
        [|left; split; [reflexivity|intros p; reflexivity]].
      destruct (AttachStderr (Streams cfg)) eqn:Ef.
      * right. intros p.
        destruct (w (stderr_writes st) body) as [nw [e|]];
          [|destruct (negb _)];
          destruct p; cbn; rewrite ?Ef, ?app_nil_r; reflexivity.
      * right. intros p. destruct p; cbn; rewrite ?Ef, ?app_nil_r; reflexivity.
    + left. split; [reflexivity|]. intros p. destruct p; reflexivity.
Qed.

(** X4.  Routing.  For every configuration, every behaviour of the sinks
    and every sequence of reads there is a number [k] of reads such that
    each sink has received, after what it held before, exactly the payloads
    (the bytes after the tag) of those of the first [k] chunks that carry
    its tag, in order of arrival, when its deliver flag is set, and nothing
    when the flag is off.  So a tag byte never reaches a sink, no payload
    goes to the other sink, and nothing is written twice or out of order. *)
Theorem read_loop_routes :
  forall cfg conn st,
    exists k,
      (k <= List.length conn)%nat /\
      forall p,
        writes_of p (fst (read_loop cfg st conn))
        = writes_of p st ++ payloads_for cfg p (firstn k conn).
Proof.
  intros cfg conn. induction conn as [|r rest IH]; intros st.
  - exists 0%nat. split; [simpl; lia|]. intros p. simpl.
    unfold payloads_for. simpl. rewrite app_nil_r. reflexivity.
  - simpl. destruct (iteration_routes cfg st r) as [[Hx Hst]|Hst].
    + destruct (iteration cfg st r) as [st1 x]. simpl in *. subst x.
      exists 0%nat. split; [lia|]. intros p. simpl.
      unfold payloads_for. simpl. rewrite app_nil_r. apply Hst.
    + destruct (iteration cfg st r) as [st1 [x|]]; simpl in Hst.
      * exists 1%nat. split; [simpl; lia|]. intros p. simpl.
        rewrite Hst. unfold payloads_for. simpl.
        destruct (delivers cfg p r); reflexivity.
      * destruct (IH st1) as (k & Hk & Hw). exists (S k).
        split; [simpl; lia|]. intros p. rewrite Hw, Hst.
        unfold payloads_for. simpl.
        destruct (delivers cfg p r); simpl; rewrite <- app_assoc; reflexivity.
Qed.

(** The sinks after a chunk that its sink took whole. *)
Lemma iteration_accepted cfg wout werr st r :
  Stdout (Streams cfg) = Some wout ->
  Stderr (Streams cfg) = Some werr ->
  accepts_all wout ->
  accepts_all werr ->
  output_frame r ->
  iteration cfg st r
  = (mkSinks
       (stdout_writes st
          ++ (if delivers cfg PStdout r then [payload r] else []))
       (stderr_writes st
          ++ (if delivers cfg PStderr r then [payload r] else []))
       (unexpected st),
     check_read_error (rd_err r)).
Proof.
  intros Hso Hse Hwo Hwe [Hlen Hshape].
  assert (Hadd : forall body : list byte,
             len (rd_data r) = len body + 1 ->
             (len (rd_data r) =? int_add (len body) 1) = true).
  { intros body Hb. unfold int_add. rewrite wrap64_in_int.
    - apply Z.eqb_eq. exact Hb.
    - unfold in_int, two63, attachPacketBufSize in *. unfold len in *. lia. }
  destruct Hshape as [Hnil|[Ht|Ht]].
  - rewrite (iteration_empty _ _ _ Hnil). unfold delivers, has_tag.
    rewrite Hnil. simpl. rewrite !app_nil_r. destruct st; reflexivity.
  - assert (Hno : has_tag attachPipeStderr r = false)
      by (apply (has_tag_two_tags attachPipeStdout); [discriminate|exact Ht]).
    unfold delivers. cbn [tag_of flag_of]. rewrite Ht, Hno. cbn [andb].
    rewrite app_nil_r.
    destruct (AttachStdout (Streams cfg)) eqn:Ef.
    + rewrite (iteration_delivered cfg st r PStdout wout).
      * rewrite Hwo, Hadd; [reflexivity|].
        rewrite (has_tag_data _ _ Ht). unfold len. simpl List.length. lia.
      * exists attachPipeStdout, (payload r).
        split; [apply has_tag_data; exact Ht|]. left. auto.
    + rewrite (iteration_stdout_discarded _ _ _ _ Hso Ef Ht).
      rewrite app_nil_r. destruct st; reflexivity.
  - assert (Hno : has_tag attachPipeStdout r = false)
      by (apply (has_tag_two_tags attachPipeStderr); [discriminate|exact Ht]).
    unfold delivers. cbn [tag_of flag_of]. rewrite Ht, Hno. cbn [andb].
    rewrite app_nil_r.
    destruct (AttachStderr (Streams cfg)) eqn:Ef.
    + rewrite (iteration_delivered cfg st r PStderr werr).
      * rewrite Hwe, Hadd; [reflexivity|].
        rewrite (has_tag_data _ _ Ht). unfold len. simpl List.length. lia.
      * exists attachPipeStderr, (payload r).
        split; [apply has_tag_data; exact Ht|]. right. auto.
    + apply has_tag_data in Ht. unfold iteration, route. rewrite Ht.
      cbn. rewrite Hse, Ef. cbn. rewrite app_nil_r. destruct st; reflexivity.
Qed.

(** X5.  Complete delivery.  With both sinks present and taking every
    write, over chunks that fit the buffer and are tagged STDOUT or STDERR,
    only the reader ends the loop: each sink receives all the payloads
    delivered to it among the reads up to the first one that reports
    [io.EOF] or an error, the function returns nil at [io.EOF] and the error
    otherwise, and it never returns if no read reports one. *)
Theorem read_loop_delivers_all :
  forall cfg wout werr conn st,
    Stdout (Streams cfg) = Some wout ->
    Stderr (Streams cfg) = Some werr ->
    accepts_all wout ->
    accepts_all werr ->
    Forall output_frame conn ->
    read_loop cfg st conn
    = (mkSinks
         (stdout_writes st ++ payloads_for cfg PStdout (until_read_error conn))
         (stderr_writes st ++ payloads_for cfg PStderr (until_read_error conn))
         (unexpected st),
       read_end conn).
Proof.
  intros cfg wout werr conn st Hso Hse Hwo Hwe Hall. revert st.
  induction Hall as [|r rest Hr Hrest IH]; intros st.
  - simpl. unfold payloads_for. simpl. rewrite !app_nil_r.
    destruct st; reflexivity.
  - simpl. rewrite (iteration_accepted _ _ _ _ _ Hso Hse Hwo Hwe Hr).
    unfold payloads_for in *.
    destruct (rd_err r) as [e|] eqn:Er.
    + destruct (check_read_error_some e) as [x Hx]. rewrite Hx. simpl.
      destruct (delivers cfg PStdout r), (delivers cfg PStderr r); reflexivity.
    + simpl. rewrite IH. simpl.
      destruct (delivers cfg PStdout r), (delivers cfg PStderr r); simpl;
        rewrite <- ?app_assoc; reflexivity.
Qed.

(** X7.  Where the result comes from.  The demultiplexer returns nil only
    when some read reported [io.EOF]; an error it returns because of a read
    is one that a read reported and is never [io.EOF] itself. *)
Theorem read_loop_result_origin :
  forall cfg conn st,
    (snd (redirectResponseToOutputStreams cfg st conn) = Some None ->
     exists r, In r conn /\ rd_err r = Some EOF)
    /\ (forall e,
          snd (read_loop cfg st conn) = Some (ExitReadErr e) ->
          e <> EOF /\ exists r, In r conn /\ rd_err r = Some e).
Proof.
  intros cfg conn.
  assert (Hcheck : forall er x,
             check_read_error er = Some x ->
             (x = ExitEOF /\ er = Some EOF)
             \/ (exists e, x = ExitReadErr e /\ er = Some e /\ e <> EOF)).
  { intros [e|] x; simpl; [|discriminate]. unfold goerr_eqb.
    destruct (goerr_eq_dec e EOF) as [->|Hne]; intros H; inversion H; subst.
    - left. auto.
    - right. exists e. auto. }
  assert (Hit : forall st r x,
             snd (iteration cfg st r) = Some x ->
             (x = ExitEOF \/ exists e, x = ExitReadErr e) ->
             check_read_error (rd_err r) = Some x).
  { intros st r x. unfold iteration.
    destruct (rd_data r) as [|tag body]; [simpl; tauto|].
    destruct (route cfg tag st) as [[[[p w]|] doWrite] st1];
      [|simpl; intros H [->|[e ->]]; discriminate].
    destruct doWrite; [|simpl; tauto].
    destruct (w (writes_of p st1) body) as [nw [e|]];
      [simpl; intros H [->|[e' ->]]; discriminate|].
    destruct (negb _); [simpl; intros H [->|[e' ->]]; discriminate|].
    simpl. tauto. }
  assert (Hloop : forall st x,
             snd (read_loop cfg st conn) = Some x ->
             (x = ExitEOF \/ exists e, x = ExitReadErr e) ->
             exists r, In r conn /\ check_read_error (rd_err r) = Some x).
  { induction conn as [|r rest IH]; intros st x H Hx; [discriminate|].
    simpl in H. destruct (iteration cfg st r) as [st1 [y|]] eqn:Ei.
    - simpl in H. inversion H; subst y. exists r. split; [left; reflexivity|].
      apply (Hit st). + rewrite Ei. reflexivity. + exact Hx.
    - destruct (IH st1 x H Hx) as (r' & Hin & Hr').
      exists r'. split; [right; exact Hin|exact Hr']. }
  intros st. split.
  - unfold redirectResponseToOutputStreams.
    destruct (read_loop cfg st conn) as [st' [x|]] eqn:El; simpl; [|discriminate].
    intros H. assert (x = ExitEOF) by (destruct x; simpl in H; congruence).
    subst x. destruct (Hloop st ExitEOF) as (r & Hin & Hr).
    + rewrite El. reflexivity.
    + left. reflexivity.
    + exists r. split; [exact Hin|].
      destruct (Hcheck _ _ Hr) as [[_ He]|(e & Hx & _)]; [exact He|discriminate].
  - intros e H. destruct (Hloop st (ExitReadErr e) H) as (r & Hin & Hr).
    + right. exists e. reflexivity.
    + destruct (Hcheck _ _ Hr) as [[Hx _]|(e' & Hx & He & Hne)]; [discriminate|].
      inversion Hx; subst e'. split; [exact Hne|]. exists r. auto.
Qed.

(** A turn on a read that reports an error leaves the loop. *)
Lemma iteration_read_error_exits cfg st r :
  rd_err r <> None -> snd (iteration cfg st r) <> None.
Proof.
  intros Her. unfold iteration.
  assert (Hc : check_read_error (rd_err r) <> None).
  { destruct (rd_err r) as [e|]; [|contradiction].
    destruct (check_read_error_some e) as [x ->]. discriminate. }
  destruct (rd_data r) as [|tag body]; [exact Hc|].
  destruct (route cfg tag st) as [[[[p w]|] doWrite] st1];
    [|simpl; discriminate].
  destruct doWrite; [|exact Hc].
  destruct (w (writes_of p st1) body) as [nw [e|]]; [simpl; discriminate|].
  destruct (negb _); [simpl; discriminate|exact Hc].
Qed.

(** X8.  The demultiplexer returns no later than the first read that
    reports [io.EOF] or an error.  Whatever the chunks contain and whatever
    the writes of the sinks return, when some read carries an error the
    function returns, and what it returns and what the sinks received are
    the same as on the reads up to and including the first such read:
    nothing after it is read. *)
Theorem redirect_returns :
  forall cfg conn st,
    (exists r, In r conn /\ rd_err r <> None) ->
    snd (redirectResponseToOutputStreams cfg st conn) <> None
    /\ redirectResponseToOutputStreams cfg st conn
       = redirectResponseToOutputStreams cfg st (until_read_error conn).
Proof.
  intros cfg conn st Hex. split.
  - revert st Hex.
    induction conn as [|r rest IH]; intros st (r0 & Hin & Her).
    + destruct Hin.
    + unfold redirectResponseToOutputStreams in *. simpl.
      destruct (iteration cfg st r) as [st1 [x|]] eqn:Ei; [simpl; discriminate|].
      destruct Hin as [->|Hin].
      * exfalso. apply (iteration_read_error_exits cfg st r0 Her).
        rewrite Ei. reflexivity.
      * apply IH. exists r0. auto.
  - clear Hex. unfold redirectResponseToOutputStreams.
    assert (Hloop : forall st,
               read_loop cfg st conn = read_loop cfg st (until_read_error conn)).
    { induction conn as [|r rest IH]; intros st'; [reflexivity|].
      simpl. destruct (rd_err r) as [e|] eqn:Er.
      - simpl.
        destruct (iteration cfg st' r) as [st1 [x|]] eqn:Ei; [reflexivity|].
        exfalso. apply (iteration_read_error_exits cfg st' r).
        + rewrite Er. discriminate.
        + rewrite Ei. reflexivity.
      - simpl. destruct (iteration cfg st' r) as [st1 [x|]];
          [reflexivity|apply IH]. }
    rewrite Hloop. reflexivity.
Qed.

(** ** The completion handling *)

Lemma is_ErrDetach_true err : is_ErrDetach err = true -> err = Some ErrDetach.
Proof.
  destruct err as [e|]; simpl; [|discriminate]. unfold goerr_eqb.
  destruct (goerr_eq_dec e ErrDetach) as [->|_]; [reflexivity|discriminate].
Qed.

(** Case analysis on everything [readStdio] looks at. *)
Ltac readStdio_cases cfg conn rse sd first :=
  unfold readStdio, select, CloseWrite, recv, output_enabled in *;
  destruct rse as [eo|], sd as [ei|], first;
  rewrite ?bind_ret_l;
  destruct (StopAfterStdinEOF cfg) eqn:Hstop;
  try (destruct (is_ErrDetach ei) eqn:Hdet;
       [try (apply is_ErrDetach_true in Hdet; subst ei)|]);
  try (destruct ei as [e|]);
  destruct (conn_CloseWrite conn) as [ce|] eqn:Hcw;
  destruct (AttachStdout (Streams cfg) || AttachStderr (Streams cfg)) eqn:Hout;
  cbn in *.

(** X9.  When the demultiplexer is first, [readStdio] half-closes the
    transport and returns the demultiplexer's value, nil or error, whatever
    [StopAfterStdinEOF] and the deliver flags are; the result of
    [CloseWrite] is dropped and the stdin goroutine is not waited for. *)
Theorem readStdio_output_case :
  forall first cfg conn receiveStdoutError stdinDone err,
    output_completes_first first receiveStdoutError stdinDone err ->
    readStdio first cfg conn receiveStdoutError stdinDone
    = ([EvCloseWrite], Some err).
Proof.
  intros first cfg conn rse sd err. unfold output_completes_first.
  unfold readStdio, select.
  destruct rse as [eo|], sd as [ei|]; simpl; try discriminate.
  - destruct first; simpl; intros H; inversion H; subst; reflexivity.
  - intros H; inversion H; subst; reflexivity.
Qed.

(** X10.  On every path [readStdio] half-closes the transport at most
    once and never closes it: the full close is left to the caller. *)
Theorem readStdio_half_closes_at_most_once :
  forall first cfg conn receiveStdoutError stdinDone,
    let m := readStdio first cfg conn receiveStdoutError stdinDone in
    (List.length (filter is_CloseWrite (trace m)) <= 1)%nat
    /\ ~ In EvClose (trace m).
Proof.
  intros first cfg conn rse sd m. split.
  - subst m. readStdio_cases cfg conn rse sd first; lia.
  - apply no_close_readStdio.
Qed.

(** X11.  [readStdio] fails to return in two situations only: neither
    goroutine ever sends, or the stdin goroutine sent a value other than
    [ErrDetach] in a session without [StopAfterStdinEOF] and with a deliver
    flag set while the demultiplexer never sends. *)
Theorem readStdio_blocks_iff :
  forall first cfg conn receiveStdoutError stdinDone,
    result (readStdio first cfg conn receiveStdoutError stdinDone) = None
    <-> receiveStdoutError = None
        /\ (stdinDone = None
            \/ exists ei, stdinDone = Some ei
                          /\ StopAfterStdinEOF cfg = false
                          /\ is_ErrDetach ei = false
                          /\ output_enabled cfg = true).
Proof.
  intros first cfg conn rse sd.
  readStdio_cases cfg conn rse sd first;
    (split;
     [ intros H;
       first [ discriminate
             | split; [reflexivity|];
               first [ left; reflexivity
                     | right; eexists; repeat split;
                       first [reflexivity | assumption] ] ]
     | intros [H1 H2];
       first [ discriminate
             | reflexivity
             | destruct H2 as [H2|(x & H2 & H3 & H4 & H5)];
               first [ discriminate
                     | inversion H2; subst;
                       first [congruence | vm_compute in H4; discriminate H4] ] ] ]).
Qed.

(** X12.  The value [readStdio] returns is nil, the value sent by the
    demultiplexer, or [ErrDetach] sent by the stdin goroutine: no other
    error of the stdin goroutine is ever returned for its own sake. *)
Theorem readStdio_result_origin :
  forall first cfg conn receiveStdoutError stdinDone err,
    result (readStdio first cfg conn receiveStdoutError stdinDone) = Some err ->
    err = None
    \/ receiveStdoutError = Some err
    \/ (err = Some ErrDetach /\ stdinDone = Some (Some ErrDetach)).
Proof.
  intros first cfg conn rse sd err.
  readStdio_cases cfg conn rse sd first; intros H; inversion H; subst; auto.
Qed.

(** X13.  When the stdin goroutine ends cleanly (it sends nil, as it does
    at once when [AttachStdin] is off) in a session without
    [StopAfterStdinEOF] and with a deliver flag set, the outcome does not
    depend on which goroutine is first: [readStdio] half-closes the
    transport and returns what the demultiplexer sends. *)
Theorem readStdio_race_independent :
  forall first cfg conn receiveStdoutError,
    StopAfterStdinEOF cfg = false ->
    output_enabled cfg = true ->
    let m := readStdio first cfg conn receiveStdoutError (Some None) in
    result m = receiveStdoutError /\ half_closes m.
Proof.
  intros first cfg conn rse Hs Ho m. subst m. unfold half_closes.
  set (sd := @Some error None).
  assert (Hsd : sd = Some None) by reflexivity. clearbody sd.
  readStdio_cases cfg conn rse sd first;
    try discriminate; inversion Hsd; subst; auto.
Qed.

(** ** The session function *)

(** X14.  A passthrough session only calls the pre-attach hook, when there
    is one, and returns what the hook returned (nil without a hook): the
    socket is not dialled, no goroutine is started, the post-attach hook is
    not called and nothing is closed. *)
Theorem attach_passthrough :
  forall env cfg,
    Passthrough cfg = true ->
    attach env cfg
    = (hook_events EvPreAttach (PreAttachFunc cfg),
       Some (match PreAttachFunc cfg with Some err => err | None => None end)).
Proof.
  intros env cfg Hp. unfold attach, attach_streams. rewrite Hp. simpl negb.
  cbv iota. destruct (PreAttachFunc cfg) as [[e|]|]; reflexivity.
Qed.

(** X15.  When the dial of the attach socket fails, [attach] returns the
    dial error wrapped, having called neither hook, started neither the
    output nor the stdin goroutine and closed nothing.  All it did before
    is the log line, the call of [HandleResizing] (which comes before the
    dial) and the dial itself. *)
Theorem attach_dial_failure :
  forall env cfg e,
    Passthrough cfg = false ->
    env_dial env = inr e ->
    attach env cfg
    = (attach_prologue cfg,
       Some (Some (errors_Wrapf e "failed to connect to container's attach socket"))).
Proof.
  intros env cfg e Hp Hd. unfold attach, DialLongSocket. rewrite Hp, Hd.
  reflexivity.
Qed.

Lemma attach_streams_trace env cfg conn :
  Passthrough cfg = false ->
  attach_streams env cfg (Some conn)
  = match PreAttachFunc cfg with
    | Some (Some e) => ([EvPreAttach], Some (Some e))
    | pre =>
        match PostAttachFunc cfg with
        | Some (Some e) =>
            (hook_events EvPreAttach pre
               ++ [EvGo GoOutput; EvGo GoStdin; EvPostAttach],
             Some (Some e))
        | post =>
            let rs := readStdio (env_first env) cfg conn
                        (snd (output_goroutine cfg conn))
                        (snd (stdin_goroutine cfg conn)) in
            (hook_events EvPreAttach pre
               ++ [EvGo GoOutput; EvGo GoStdin]
               ++ hook_events EvPostAttach post ++ trace rs,
             result rs)
        end
    end.
Proof.
  intros Hp. unfold attach_streams. rewrite Hp.
  destruct (PreAttachFunc cfg) as [[e|]|];
    destruct (PostAttachFunc cfg) as [[e'|]|];
    try reflexivity;
    unfold setupStdioChannels, call_hook, emit, bind, ret, trace, result;
    cbn [app fst snd hook_events];
    destruct (readStdio _ _ _ _ _) as [t r]; reflexivity.
Qed.

(** X16.  How a session composes.  When the dial succeeds and no hook
    fails, [attach] dials, calls the pre-attach hook, starts the two
    goroutines, calls the post-attach hook, runs [readStdio] on the channels
    of the two goroutines and, when that returns, closes the transport; its
    result is the result of [readStdio]. *)
Theorem attach_runs_session :
  forall env cfg conn,
    Passthrough cfg = false ->
    env_dial env = inl conn ->
    ~ hook_fails (PreAttachFunc cfg) ->
    ~ hook_fails (PostAttachFunc cfg) ->
    let rs := readStdio (env_first env) cfg conn
                (snd (output_goroutine cfg conn))
                (snd (stdin_goroutine cfg conn)) in
    attach env cfg
    = (attach_prologue cfg
         ++ hook_events EvPreAttach (PreAttachFunc cfg)
         ++ [EvGo GoOutput; EvGo GoStdin]
         ++ hook_events EvPostAttach (PostAttachFunc cfg)
         ++ trace rs
         ++ match result rs with
            | Some _ => EvClose :: close_log conn
            | None => []
            end,
       result rs).
Proof.
  intros env cfg conn Hp Hd Hpre Hpost rs.
  rewrite (attach_dialled _ _ _ Hp Hd).
  rewrite (deferred_runs _ _ _ (close_socket_runs conn)).
  rewrite (attach_streams_trace _ _ _ Hp). fold rs.
  destruct (PreAttachFunc cfg) as [[e|]|];
    [exfalso; apply Hpre; exists e; reflexivity| |];
    (destruct (PostAttachFunc cfg) as [[e'|]|];
     [exfalso; apply Hpost; exists e'; reflexivity| |]);
    unfold trace, result; cbn [fst snd];
    destruct (snd rs); cbn [app hook_events];
    rewrite <- ?app_assoc, ?app_nil_r; reflexivity.
Qed.

(** X17.  A failing pre-attach hook ends a session that has dialled before
    the output and stdin goroutines are started ([HandleResizing] was
    called before the dial, so the resize watcher is already there): the
    post-attach hook is not called, the transport is closed and the hook's
    error is returned. *)
Theorem attach_pre_hook_failure :
  forall env cfg conn e,
    Passthrough cfg = false ->
    env_dial env = inl conn ->
    PreAttachFunc cfg = Some (Some e) ->
    attach env cfg
    = (attach_prologue cfg ++ [EvPreAttach] ++ EvClose :: close_log conn,
       Some (Some e)).
Proof.
  intros env cfg conn e Hp Hd Hpre.
  rewrite (attach_dialled _ _ _ Hp Hd).
  rewrite (deferred_runs _ _ _ (close_socket_runs conn)).
  rewrite (attach_streams_trace _ _ _ Hp), Hpre. reflexivity.
Qed.

(** X18.  A failing post-attach hook ends the session after the two
    goroutines were started and before [readStdio]: the transport is not
    half-closed, neither channel is received from, the transport is closed
    and the hook's error is returned. *)
Theorem attach_post_hook_failure :
  forall env cfg conn e,
    Passthrough cfg = false ->
    env_dial env = inl conn ->
    ~ hook_fails (PreAttachFunc cfg) ->
    PostAttachFunc cfg = Some (Some e) ->
    attach env cfg
    = (attach_prologue cfg
         ++ hook_events EvPreAttach (PreAttachFunc cfg)
         ++ [EvGo GoOutput; EvGo GoStdin; EvPostAttach]
         ++ EvClose :: close_log conn,
       Some (Some e)).
Proof.
  intros env cfg conn e Hp Hd Hpre Hpost.
  rewrite (attach_dialled _ _ _ Hp Hd).
  rewrite (deferred_runs _ _ _ (close_socket_runs conn)).
  rewrite (attach_streams_trace _ _ _ Hp), Hpost.
  destruct (PreAttachFunc cfg) as [[e'|]|];
    [exfalso; apply Hpre; exists e'; reflexivity| |];
    unfold trace, result; cbn [fst snd app hook_events];
    rewrite <- ?app_assoc; reflexivity.
Qed.

(** ** The control-plane calls *)

(** X19.  [SetWindowSizeContainer] with a nil size returns "Terminal size
    cannot be nil" without touching the control plane.  With a size it
    returns the first error among opening the RPC connection, the call's
    [Struct] and its [Response], nil when there is none; it always returns,
    and once the connection is open it ends, on every path, with [free]
    followed by the close of the connection. *)
Theorem SetWindowSizeContainer_outcome :
  forall env cfg,
    Rpc.SetWindowSizeContainer env cfg
    = match Rpc.win_Size cfg with
      | None => ([], Some (Some Rpc.size_is_nil))
      | Some _ =>
          (Rpc.call_events env Rpc.CallSetWindowSizeContainer
             ++ Rpc.release_events env,
           Some (Rpc.ack env))
      end.
Proof.
  intros env cfg. unfold Rpc.SetWindowSizeContainer.
  destruct (Rpc.win_Size cfg) as [size|]; [|reflexivity].
  unfold Rpc.call_events, Rpc.release_events, Rpc.ack, Rpc.newRPCConn,
    Rpc.Struct, Rpc.Response.
  destruct (Rpc.env_newRPCConn env) as [e1|]; [reflexivity|].
  destruct (Rpc.env_Struct env) as [e2|]; [reflexivity|].
  destruct (Rpc.env_Response env) as [e3|]; reflexivity.
Qed.

(** X20.  [AttachContainer] does not start the attach session unless the
    control plane acknowledged the call: when opening the RPC connection,
    [Struct] or [Response] fails, the first such error is returned, no event
    of the session happens (the attach socket is not dialled), and a
    connection that was opened is released. *)
Theorem AttachContainer_not_acknowledged :
  forall env senv cfg e,
    Rpc.ack env = Some e ->
    Rpc.AttachContainer env senv cfg
    = (Rpc.call_events env Rpc.CallAttachContainer ++ Rpc.release_events env,
       Some (Some e)).
Proof.
  intros env senv cfg e. unfold Rpc.AttachContainer.
  unfold Rpc.call_events, Rpc.release_events, Rpc.ack, Rpc.newRPCConn,
    Rpc.Struct, Rpc.Response.
  destruct (Rpc.env_newRPCConn env) as [e1|];
    [intros H; inversion H; reflexivity|].
  destruct (Rpc.env_Struct env) as [e2|];
    [intros H; inversion H; reflexivity|].
  destruct (Rpc.env_Response env) as [e3|];
    [intros H; inversion H; reflexivity|discriminate].
Qed.

(** X21.  An acknowledged [AttachContainer] runs the attach session and
    returns its result.  The RPC connection stays open for the whole
    session: [free] and the close of the connection come after the last
    event of the session, and they do not happen when the session never
    returns. *)
Theorem AttachContainer_acknowledged :
  forall env senv cfg,
    Rpc.ack env = None ->
    Rpc.AttachContainer env senv cfg
    = ([Rpc.EvNewRPCConn; Rpc.EvBootstrap; Rpc.EvCall Rpc.CallAttachContainer;
        Rpc.EvStruct; Rpc.EvResponse]
         ++ map Rpc.EvSession (trace (attach senv cfg))
         ++ match result (attach senv cfg) with
            | Some _ => [Rpc.EvFree; Rpc.EvRPCClose]
            | None => []
            end,
       result (attach senv cfg)).
Proof.
  intros env senv cfg. unfold Rpc.AttachContainer.
  unfold Rpc.ack, Rpc.newRPCConn, Rpc.Struct, Rpc.Response.
  destruct (Rpc.env_newRPCConn env) as [e1|]; [discriminate|].
  destruct (Rpc.env_Struct env) as [e2|]; [discriminate|].
  destruct (Rpc.env_Response env) as [e3|]; [discriminate|]. intros _.
  unfold Rpc.lift, trace, result.
  destruct (attach senv cfg) as [t [r|]]; cbn;
    rewrite <- ?app_assoc, ?app_nil_r; reflexivity.
Qed.

(** X22.  The function given to the resize watcher never fails and never
    takes the nil-size path: for every size it tries the control-plane
    call, releases the connection it opened, and only logs a failure. *)
Theorem resize_handler_swallows_errors :
  forall env cfg size,
    Rpc.resize_handler env cfg size
    = (Rpc.EvDebugf "Got a resize event" None
         :: Rpc.call_events env Rpc.CallSetWindowSizeContainer
         ++ Rpc.release_events env
         ++ match Rpc.ack env with
            | Some e =>
                [Rpc.EvDebugf
                   "Failed to write to control file to resize terminal"
                   (Some e)]
            | None => []
            end,
       Some tt).
Proof.
  intros env cfg size. unfold Rpc.resize_handler, Rpc.SetWindowSizeContainer.
  cbn [Rpc.win_Size].
  unfold Rpc.call_events, Rpc.release_events, Rpc.ack, Rpc.newRPCConn,
    Rpc.Struct, Rpc.Response.
  destruct (Rpc.env_newRPCConn env) as [e1|]; [reflexivity|].
  destruct (Rpc.env_Struct env) as [e2|]; [reflexivity|].
  destruct (Rpc.env_Response env) as [e3|]; reflexivity.
Qed.

(** The trace of a session that dialled and returns ends with the close of
    the transport, which happens nowhere before. *)
Lemma attach_trace_close_last env cfg conn err :
  Passthrough cfg = false ->
  env_dial env = inl conn ->
  result (attach env cfg) = Some err ->
  exists before,
    trace (attach env cfg) = before ++ EvClose :: close_log conn
    /\ ~ In EvClose before.
Proof.
  intros Hp Hd. rewrite (attach_dialled _ _ _ Hp Hd).
  rewrite (deferred_runs _ _ _ (close_socket_runs conn)).
  unfold trace, result. cbn [fst snd]. intros Hr. rewrite Hr.
  exists (attach_prologue cfg ++ fst (attach_streams env cfg (Some conn))).
  split; [rewrite <- app_assoc; reflexivity|].
  rewrite in_app_iff. intros [H|H].
  - unfold attach_prologue in H. simpl in H.
    destruct H as [H|[H|[H|[]]]]; discriminate.
  - exact (no_close_attach_streams env cfg conn Hp H).
Qed.

(** X23.  Order of release.  In an acknowledged [AttachContainer] whose
    session dialled and returns, the attach socket is closed first, then
    [free] is called, then the RPC connection is closed; none of the three
    happens earlier in the call. *)
Theorem AttachContainer_release_order :
  forall env senv cfg conn err,
    Rpc.ack env = None ->
    Passthrough cfg = false ->
    env_dial senv = inl conn ->
    Rpc.result (Rpc.AttachContainer env senv cfg) = Some err ->
    exists before,
      Rpc.trace (Rpc.AttachContainer env senv cfg)
      = before
          ++ Rpc.EvSession EvClose :: map Rpc.EvSession (close_log conn)
          ++ [Rpc.EvFree; Rpc.EvRPCClose]
      /\ ~ In (Rpc.EvSession EvClose) before
      /\ ~ In Rpc.EvFree before
      /\ ~ In Rpc.EvRPCClose before.
Proof.
  intros env senv cfg conn err Hack Hp Hd.
  assert (Hunfold :
    Rpc.AttachContainer env senv cfg
    = ([Rpc.EvNewRPCConn; Rpc.EvBootstrap; Rpc.EvCall Rpc.CallAttachContainer;
        Rpc.EvStruct; Rpc.EvResponse]
         ++ map Rpc.EvSession (trace (attach senv cfg))
         ++ match result (attach senv cfg) with
            | Some _ => [Rpc.EvFree; Rpc.EvRPCClose]
            | None => []
            end,
       result (attach senv cfg))).
  { unfold Rpc.AttachContainer.
    unfold Rpc.ack, Rpc.newRPCConn, Rpc.Struct, Rpc.Response in *.
    destruct (Rpc.env_newRPCConn env) as [e1|]; [discriminate|].
    destruct (Rpc.env_Struct env) as [e2|]; [discriminate|].
    destruct (Rpc.env_Response env) as [e3|]; [discriminate|].
    unfold Rpc.lift, trace, result.
    destruct (attach senv cfg) as [t [r|]]; cbn;
      rewrite <- ?app_assoc, ?app_nil_r; reflexivity. }
  rewrite Hunfold. unfold Rpc.result, Rpc.trace. cbn [fst snd]. intros Hr.
  destruct (attach_trace_close_last _ _ _ _ Hp Hd Hr) as (b & Ht & Hb).
  rewrite Hr, Ht.
  exists ([Rpc.EvNewRPCConn; Rpc.EvBootstrap;
           Rpc.EvCall Rpc.CallAttachContainer; Rpc.EvStruct; Rpc.EvResponse]
            ++ map Rpc.EvSession b).
  split.
  - rewrite map_app. cbn [map]. rewrite <- !app_assoc. reflexivity.
  - assert (Hmap : forall e, In e (map Rpc.EvSession b) ->
                             exists s, e = Rpc.EvSession s /\ In s b).
    { intros e H. apply in_map_iff in H. destruct H as (s & <- & Hs). eauto. }
    repeat split; rewrite in_app_iff; intros [H|H];
      try (simpl in H; repeat (destruct H as [H|H]; try discriminate);
           contradiction);
      destruct (Hmap _ H) as (s & Hs & Hin); inversion Hs; subst;
      contradiction.
Qed.

(** X24.  A session without stdin.  When the dial succeeds, no hook fails,
    [AttachStdin] is off, [StopAfterStdinEOF] is off and a deliver flag is
    set, [attach] returns exactly what the demultiplexer returns on the
    reads of the transport, whichever goroutine the [select] finds ready
    first, and it returns if and only if the demultiplexer does. *)
Theorem attach_without_stdin :
  forall env cfg conn,
    Passthrough cfg = false ->
    env_dial env = inl conn ->
    ~ hook_fails (PreAttachFunc cfg) ->
    ~ hook_fails (PostAttachFunc cfg) ->
    AttachStdin (Streams cfg) = false ->
    StopAfterStdinEOF cfg = false ->
    output_enabled cfg = true ->
    result (attach env cfg)
    = snd (redirectResponseToOutputStreams cfg no_writes (conn_reads conn)).
Proof.
  intros env cfg conn Hp Hd Hpre Hpost Hin Hs Ho.
  rewrite (attach_dialled _ _ _ Hp Hd).
  rewrite (deferred_runs _ _ _ (close_socket_runs conn)).
  rewrite (attach_streams_trace _ _ _ Hp).
  assert (Hsd : snd (stdin_goroutine cfg conn) = Some None).
  { unfold stdin_goroutine. rewrite Hin. reflexivity. }
  rewrite Hsd. unfold output_goroutine.
  set (rse := snd (redirectResponseToOutputStreams cfg no_writes (conn_reads conn))).
  assert (Hrs : result (readStdio (env_first env) cfg conn rse (Some None)) = rse).
  { set (sd := @Some error None).
    assert (Esd : sd = Some None) by reflexivity. clearbody sd rse.
    generalize (env_first env). intros g.
    readStdio_cases cfg conn rse sd g;
      try discriminate; inversion Esd; subst; auto. }
  destruct (PreAttachFunc cfg) as [[e|]|];
    [exfalso; apply Hpre; exists e; reflexivity| |];
    (destruct (PostAttachFunc cfg) as [[e'|]|];
     [exfalso; apply Hpost; exists e'; reflexivity| |]);
    unfold result in *; cbn [fst snd]; exact Hrs.
Qed.

(** ** Instances *)

Lemma redirect_write_error_witness :
  redirectResponseToOutputStreams
    (output_config (Some (fails_with broken_pipe)) (Some accept) true true)
    no_writes (mkRead [x02; x61] (Some EOF) :: sample_output)
  = (record_write PStdout [x61] no_writes, Some (Some broken_pipe)).
Proof.
  apply (redirect_write_error
           (output_config (Some (fails_with broken_pipe)) (Some accept) true true)
           no_writes (mkRead [x02; x61] (Some EOF)) PStdout
           (fails_with broken_pipe) 1 broken_pipe sample_output).
  - exists x02, [x61]. split; [reflexivity|]. left. repeat split; reflexivity.
  - reflexivity.
Defined.

Lemma redirect_count_mismatch_witness :
  snd (iteration (output_config (Some accept) (Some over_reports) true true)
                 no_writes (mkRead [x03; x61] None))
  = Some ExitShortWrite
  <-> 2 <> len [x03; x61] - 1.
Proof.
  apply (redirect_count_mismatch
           (output_config (Some accept) (Some over_reports) true true)
           no_writes (mkRead [x03; x61] None) PStderr over_reports 2).
  - exists x03, [x61]. split; [reflexivity|]. right. repeat split; reflexivity.
  - reflexivity.
  - unfold in_int, two63, len. simpl. lia.
  - unfold in_int, two63. lia.
Defined.

Lemma read_loop_delivers_all_witness :
  read_loop (output_config (Some accept) (Some accept) true true)
            no_writes sample_output
  = (mkSinks [[x61]] [[x62]] [], Some ExitEOF).
Proof.
  apply (read_loop_delivers_all
           (output_config (Some accept) (Some accept) true true)
           accept accept sample_output no_writes).
  - reflexivity.
  - reflexivity.
  - intros sent p. reflexivity.
  - intros sent p. reflexivity.
  - unfold sample_output.
    repeat (apply Forall_cons || apply Forall_nil);
      unfold output_frame, has_tag, len, attachPacketBufSize; simpl;
      (split; [lia | auto]).
Defined.

Lemma read_loop_stops_reading_witness :
  read_loop (output_config (Some accept) (Some accept) true true) no_writes
            ([mkRead [x02; x61] (Some EOF)] ++ sample_output)
  = (mkSinks [[x61]] [] [], Some ExitEOF).
Proof.
  apply (read_loop_stops_reading
           (output_config (Some accept) (Some accept) true true)
           [mkRead [x02; x61] (Some EOF)] no_writes (mkSinks [[x61]] [] [])
           ExitEOF sample_output).
  reflexivity.
Defined.

Lemma read_loop_result_origin_witness :
  exists r, In r sample_output /\ rd_err r = Some EOF.
Proof.
  destruct (read_loop_result_origin
              (output_config (Some accept) (Some accept) true true)
              sample_output no_writes) as [Hnil _].
  apply Hnil. reflexivity.
Defined.

Lemma redirect_returns_witness :
  snd (redirectResponseToOutputStreams
         (output_config (Some accept) (Some accept) true true) no_writes
         (sample_output ++ [mkRead [x03; x63] None]))
  <> None
  /\ redirectResponseToOutputStreams
       (output_config (Some accept) (Some accept) true true) no_writes
       (sample_output ++ [mkRead [x03; x63] None])
     = (mkSinks [[x61]] [[x62]] [], Some None).
Proof.
  apply (redirect_returns
           (output_config (Some accept) (Some accept) true true)
           (sample_output ++ [mkRead [x03; x63] None]) no_writes).
  exists (mkRead [] (Some EOF)). split.
  - right. right. left. reflexivity.
  - discriminate.
Defined.

Lemma readStdio_output_case_witness :
  readStdio GoOutput (config0 true true true) (conn0 None)
            (Some (Some broken_pipe)) (Some None)
  = ([EvCloseWrite], Some (Some broken_pipe)).
Proof.
  apply (readStdio_output_case GoOutput (config0 true true true) (conn0 None)
           (Some (Some broken_pipe)) (Some None) (Some broken_pipe)).
  reflexivity.
Defined.

Lemma readStdio_result_origin_witness :
  @None goerr = None
  \/ Some (Some ErrShortWrite) = Some (@None goerr)
  \/ (@None goerr = Some ErrDetach
      /\ Some (Some broken_pipe) = Some (Some ErrDetach)).
Proof.
  apply (readStdio_result_origin GoStdin (config0 false false false)
           (conn0 None) (Some (Some ErrShortWrite))
           (Some (Some broken_pipe)) None).
  reflexivity.
Defined.

Lemma readStdio_race_independent_witness :
  result (readStdio GoOutput (config0 false true false)
                    (conn0 (Some broken_pipe))
                    (Some (Some ErrShortWrite)) (Some None))
  = Some (Some ErrShortWrite)
  /\ half_closes (readStdio GoOutput (config0 false true false)
                            (conn0 (Some broken_pipe))
                            (Some (Some ErrShortWrite)) (Some None)).
Proof.
  apply (readStdio_race_independent GoOutput (config0 false true false)
           (conn0 (Some broken_pipe)) (Some (Some ErrShortWrite)));
    reflexivity.
Defined.

Lemma attach_passthrough_witness :
  attach session_env (passthrough_config (Some None) (Some (Some broken_pipe)))
  = ([EvPreAttach], Some None).
Proof.
  apply (attach_passthrough session_env
           (passthrough_config (Some None) (Some (Some broken_pipe)))).
  reflexivity.
Defined.

Lemma attach_dial_failure_witness :
  attach (mkEnv (inr broken_pipe) GoStdin)
         (session_config (Some (Some ErrShortWrite)) None)
  = (attach_prologue (session_config (Some (Some ErrShortWrite)) None),
     Some (Some (errors_Wrapf broken_pipe
                   "failed to connect to container's attach socket"))).
Proof.
  apply (attach_dial_failure (mkEnv (inr broken_pipe) GoStdin)
           (session_config (Some (Some ErrShortWrite)) None) broken_pipe);
    reflexivity.
Defined.

Lemma attach_runs_session_witness :
  attach session_env (session_config (Some None) None)
  = ([EvDebugf "Attaching to container"; EvHandleResizing;
      EvDial "/run/attach.sock"; EvPreAttach; EvGo GoOutput; EvGo GoStdin;
      EvCloseWrite; EvRecvStdout;
      EvClose; EvErrorf "unable to close socket" broken_pipe],
     Some None).
Proof.
  apply (attach_runs_session session_env (session_config (Some None) None)
           session_conn).
  - reflexivity.
  - reflexivity.
  - intros [e H]. discriminate.
  - intros [e H]. discriminate.
Defined.

Lemma attach_pre_hook_failure_witness :
  attach session_env (session_config (Some (Some broken_pipe)) (Some None))
  = ([EvDebugf "Attaching to container"; EvHandleResizing;
      EvDial "/run/attach.sock"; EvPreAttach;
      EvClose; EvErrorf "unable to close socket" broken_pipe],
     Some (Some broken_pipe)).
Proof.
  apply (attach_pre_hook_failure session_env
           (session_config (Some (Some broken_pipe)) (Some None))
           session_conn broken_pipe);
    reflexivity.
Defined.

Lemma attach_post_hook_failure_witness :
  attach session_env (session_config None (Some (Some broken_pipe)))
  = ([EvDebugf "Attaching to container"; EvHandleResizing;
      EvDial "/run/attach.sock"; EvGo GoOutput; EvGo GoStdin; EvPostAttach;
      EvClose; EvErrorf "unable to close socket" broken_pipe],
     Some (Some broken_pipe)).
Proof.
  apply (attach_post_hook_failure session_env
           (session_config None (Some (Some broken_pipe)))
           session_conn broken_pipe).
  - reflexivity.
  - reflexivity.
  - intros [e H]. discriminate.
  - reflexivity.
Defined.

Lemma AttachContainer_not_acknowledged_witness :
  Rpc.AttachContainer rpc_struct_fails session_env (session_config None None)
  = ([Rpc.EvNewRPCConn; Rpc.EvBootstrap; Rpc.EvCall Rpc.CallAttachContainer;
      Rpc.EvStruct; Rpc.EvFree; Rpc.EvRPCClose],
     Some (Some broken_pipe)).
Proof.
  apply (AttachContainer_not_acknowledged rpc_struct_fails session_env
           (session_config None None) broken_pipe).
  reflexivity.
Defined.

Lemma AttachContainer_acknowledged_witness :
  Rpc.result (Rpc.AttachContainer rpc_ok session_env (session_config None None))
  = Some None.
Proof.
  rewrite (AttachContainer_acknowledged rpc_ok session_env
             (session_config None None) eq_refl).
  reflexivity.
Defined.

Lemma AttachContainer_release_order_witness :
  exists before,
    Rpc.trace (Rpc.AttachContainer rpc_ok session_env (session_config None None))
    = before
        ++ Rpc.EvSession EvClose :: map Rpc.EvSession (close_log session_conn)
        ++ [Rpc.EvFree; Rpc.EvRPCClose]
    /\ ~ In (Rpc.EvSession EvClose) before
    /\ ~ In Rpc.EvFree before
    /\ ~ In Rpc.EvRPCClose before.
Proof.
  apply (AttachContainer_release_order rpc_ok session_env
           (session_config None None) session_conn None);
    reflexivity.
Defined.

Lemma attach_without_stdin_witness :
  result (attach (output_env GoStdin)
                 (output_config (Some accept) (Some accept) true true))
  = Some None.
Proof.
  apply (attach_without_stdin (output_env GoStdin)
           (output_config (Some accept) (Some accept) true true) output_conn).
  - reflexivity.
  - reflexivity.
  - intros [e H]. discriminate.
  - intros [e H]. discriminate.
  - reflexivity.
  - reflexivity.
  - reflexivity.
Defined.
